(** * Strava yearly summaries: the sync engine and the aggregation engine

    A shallow embedding of [strava/download_activities.py] and
    [plots/generate_yearly_summary.py], followed by the properties of the
    incremental synchronisation (cursor, merge by identifier, persistence)
    and of the yearly aggregation (selection by year, pace formatting). *)

From Stdlib Require Import List String Ascii ZArith Bool Lia.
From Stdlib Require Import Permutation Sorted DecimalString OrderedTypeEx.
From Stdlib Require Import Floats.
Import ListNotations.

Local Open Scope string_scope.
Local Open Scope Z_scope.

(** ** Python runtime values the two scripts rely on *)

(** The exception classes the scripts can meet.  All but [SystemExit]
    derive from [Exception]; [SystemExit] is raised by [sys.exit] in the
    summary script only, which has no handler around it. *)
Inductive exn : Type :=
| KeyError (key : string)
| IndexError
| TypeError
| ValueError
| AttributeError
| OverflowError
| ZeroDivisionError
| JSONDecodeError
| CapabilityError (msg : string)
| SystemExit (code : Z).

(** [str(e)], as the log lines show it. *)
Definition exn_message (e : exn) : string :=
  match e with
  | KeyError k => "'" ++ k ++ "'"
  | IndexError => "list index out of range"
  | TypeError => "unsupported operand type(s)"
  | ValueError => "invalid value"
  | AttributeError => "object has no such attribute"
  | OverflowError => "int too large to convert to float"
  | ZeroDivisionError => "division by zero"
  | JSONDecodeError => "Expecting value"
  | CapabilityError msg => msg
  | SystemExit _ => ""
  end.

(** A computation either returns a value or raises. *)
Inductive result (A : Type) : Type :=
| Ok (a : A)
| Raise (e : exn).
Arguments Ok {A} a.
Arguments Raise {A} e.

Definition bind {A B : Type} (m : result A) (k : A -> result B) : result B :=
  match m with
  | Ok a => k a
  | Raise e => Raise e
  end.

Notation "x <- m ;; k" := (bind m (fun x => k))
  (at level 61, m at next level, right associativity).

(** A key of a JSON object: missing, present with [null], or present with a
    value.  [Absent] and [Null] differ for [d['k']] and for [d.get('k', dflt)]. *)
Inductive field (A : Type) : Type :=
| Absent
| Null
| Val (a : A).
Arguments Absent {A}.
Arguments Null {A}.
Arguments Val {A} a.

(** [d.get(k)]: Python's [None] is Rocq's [None]. *)
Definition get {A : Type} (f : field A) : option A :=
  match f with
  | Val a => Some a
  | Absent | Null => None
  end.

(** [d.get(k, dflt)]: the default replaces a missing key only. *)
Definition get_default {A : Type} (f : field A) (dflt : A) : option A :=
  match f with
  | Absent => Some dflt
  | Null => None
  | Val a => Some a
  end.

(** [d[k]]: raises [KeyError] on a missing key. *)
Definition getitem {A : Type} (k : string) (f : field A) : result (option A) :=
  match f with
  | Absent => Raise (KeyError k)
  | Null => Ok None
  | Val a => Ok (Some a)
  end.

(** Truth value of a [str]-or-[None]: [None] and the empty string are falsy. *)
Definition truthy_str (v : option string) : bool :=
  match v with
  | None => false
  | Some s => negb (s =? "")%string
  end.

(** [str(v)] inside an f-string. *)
Definition str_of_opt (v : option string) : string :=
  match v with
  | None => "None"
  | Some s => s
  end.

(** [str(n)] for an [int]. *)
Definition str_of_int (n : Z) : string := NilZero.string_of_int (Z.to_int n).

(** [a < b] on sort keys that are [str] or [None]: ordering is defined
    between two strings only (by code points, which on the UTF-8 bytes held
    in a Rocq [string] is the byte-wise order); any operand [None] raises. *)
Definition py_lt (a b : option string) : result bool :=
  match a, b with
  | Some x, Some y => Ok (x <? y)%string
  | _, _ => Raise TypeError
  end.

(** ** Numbers: Python's [int] and [float] *)

Inductive num : Type :=
| NInt (z : Z)
| NFloat (f : float).

(** [float(z)]: nearest double, ties to even; too large an [int] raises. *)
Definition float_of_int (z : Z) : result float :=
  match binary_normalize prec emax z 0 false with
  | S754_infinity _ => Raise OverflowError
  | sf => Ok (SF2Prim sf)
  end.

Definition to_float (n : num) : result float :=
  match n with
  | NInt z => float_of_int z
  | NFloat f => Ok f
  end.

(** [a + b] *)
Definition num_add (a b : num) : result num :=
  match a, b with
  | NInt x, NInt y => Ok (NInt (x + y))
  | _, _ => x <- to_float a ;; y <- to_float b ;; Ok (NFloat (x + y)%float)
  end.

(** [a - b] *)
Definition num_sub (a b : num) : result num :=
  match a, b with
  | NInt x, NInt y => Ok (NInt (x - y))
  | _, _ => x <- to_float a ;; y <- to_float b ;; Ok (NFloat (x - y)%float)
  end.

(** [a * b] *)
Definition num_mul (a b : num) : result num :=
  match a, b with
  | NInt x, NInt y => Ok (NInt (x * y))
  | _, _ => x <- to_float a ;; y <- to_float b ;; Ok (NFloat (x * y)%float)
  end.

(** True division of two [int]s: the correctly rounded quotient. *)
Definition int_truediv (x y : Z) : result float :=
  match x, y with
  | _, Z0 => Raise ZeroDivisionError
  | Z0, _ => Ok (if y <? 0 then neg_zero else zero)
  | _, _ =>
      let '(q, e, l) :=
        SFdiv_core_binary prec emax (Z.abs x) 0 (Z.abs y) 0 in
      match binary_round_aux prec emax (xorb (x <? 0) (y <? 0)) q e l with
      | S754_infinity _ => Raise OverflowError
      | sf => Ok (SF2Prim sf)
      end
  end.

(** [a / b] *)
Definition num_truediv (a b : num) : result float :=
  match a, b with
  | NInt x, NInt y => int_truediv x y
  | _, _ =>
      x <- to_float a ;; y <- to_float b ;;
      if (y =? 0)%float then Raise ZeroDivisionError else Ok (x / y)%float
  end.

(** Exact comparison of an [int] with a [float], as Python does it (no
    rounding of the [int]); [None] when the float is a NaN. *)
Definition cmp_int_float (z : Z) (f : float) : option comparison :=
  match Prim2SF f with
  | S754_nan => None
  | S754_infinity s => Some (if s then Gt else Lt)
  | S754_zero _ => Some (z ?= 0)
  | S754_finite s m e =>
      let v := if s then Z.neg m else Z.pos m in
      Some (if 0 <=? e then z ?= v * 2 ^ e else z * 2 ^ (- e) ?= v)
  end.

Definition num_cmp (a b : num) : option comparison :=
  match a, b with
  | NInt x, NInt y => Some (x ?= y)
  | NInt x, NFloat g => cmp_int_float x g
  | NFloat f, NInt y => option_map CompOpp (cmp_int_float y f)
  | NFloat f, NFloat g =>
      match (f ?= g)%float with
      | FEq => Some Eq
      | FLt => Some Lt
      | FGt => Some Gt
      | FNotComparable => None
      end
  end.

(** [a > b] and [a <= b]; every comparison with a NaN is false. *)
Definition num_gt (a b : num) : bool :=
  match num_cmp a b with Some Gt => true | _ => false end.

Definition num_le (a b : num) : bool :=
  match num_cmp a b with Some Lt | Some Eq => true | _ => false end.

(** [int(f)]: truncation towards zero; infinities and NaN raise. *)
Definition int_of_float (f : float) : result Z :=
  match Prim2SF f with
  | S754_nan => Raise ValueError
  | S754_infinity _ => Raise OverflowError
  | S754_zero _ => Ok 0
  | S754_finite s m e =>
      let a := if 0 <=? e then Z.pos m * 2 ^ e else Z.pos m / 2 ^ (- e) in
      Ok (if s then - a else a)
  end.

(** ** State and exceptions together

    A statement sequence of either script: it transforms the state [S] of
    the outside world and either completes with a value or raises.  The
    state reached when the exception is raised is kept, as in Python. *)
Definition M (S A : Type) : Type := S -> S * result A.

Definition ret {S A : Type} (a : A) : M S A := fun s => (s, Ok a).

Definition raise {S A : Type} (e : exn) : M S A := fun s => (s, Raise e).

Definition lift {S A : Type} (r : result A) : M S A := fun s => (s, r).

Definition mbind {S A B : Type} (m : M S A) (k : A -> M S B) : M S B :=
  fun s =>
    match m s with
    | (s', Ok a) => k a s'
    | (s', Raise e) => (s', Raise e)
    end.

Notation "x <~ m ;; k" := (mbind m (fun x => k))
  (at level 61, m at next level, right associativity).
Notation "m ;;; k" := (mbind m (fun _ => k))
  (at level 61, right associativity).

(** [when c: m] *)
Definition when {S : Type} (c : bool) (m : M S unit) : M S unit :=
  if c then m else ret tt.

(** ** The activity record

    One element of [activities.json]: the JSON object that stravalib's
    [model_dump(mode='json')] writes for an activity, restricted to the keys
    the two scripts read.  Every key may be missing or [null]. *)
Record map_object : Type := {
  summary_polyline : field string
}.

Record activity : Type := {
  f_id : field Z;
  f_name : field string;
  f_type : field string;
  f_start_date : field string;
  f_start_date_local : field string;
  f_distance : field num;
  f_moving_time : field num;
  f_start_latlng : field (list num);
  f_map : field map_object
}.

(** ** [list.sort(key=...)]

    Python's sort is stable and orders the elements with [<] on their keys
    only.  Insertion from the right end gives the same list as any stable
    sort, and compares every element of a list of two or more at least once,
    so it raises on a key that is [None] exactly when Python does. *)
Section ListSort.
Context {A : Type} (key : A -> option string).

Fixpoint insert_sorted (x : A) (l : list A) : result (list A) :=
  match l with
  | [] => Ok [x]
  | y :: l' =>
      b <- py_lt (key y) (key x) ;;
      if b then (r <- insert_sorted x l' ;; Ok (y :: r))
      else Ok (x :: y :: l')
  end.

Fixpoint list_sort (l : list A) : result (list A) :=
  match l with
  | [] => Ok []
  | x :: l' => s <- list_sort l' ;; insert_sorted x s
  end.
End ListSort.

(** [l[-1]] *)
Fixpoint last_item {A : Type} (l : list A) : result A :=
  match l with
  | [] => Raise IndexError
  | [x] => Ok x
  | _ :: l' => last_item l'
  end.

(** ** A [dict] keyed by activity id

    Python dictionaries keep insertion order, and assigning to a key that is
    already there replaces the value in place.  The id is an [int] or
    [None] (a JSON [null]). *)
Definition py_dict : Type := list (option Z * activity).

Definition key_eqb (a b : option Z) : bool :=
  match a, b with
  | Some x, Some y => x =? y
  | None, None => true
  | _, _ => false
  end.

(** [d[k] = v] *)
Fixpoint dict_set (k : option Z) (v : activity) (d : py_dict) : py_dict :=
  match d with
  | [] => [(k, v)]
  | (k', v') :: d' =>
      if key_eqb k' k then (k', v) :: d' else (k', v') :: dict_set k v d'
  end.

(** [list(d.values())] *)
Definition dict_values (d : py_dict) : list activity := map snd d.

(** ** [strava/download_activities.py] *)

(** The credential triple of [strava_tokens.json]. *)
Record tokens : Type := {
  access_token : string;
  refresh_token : string;
  expires_at : Z
}.

(** What [ACTIVITIES_FILE] holds: nothing (no file), bytes that
    [json.load] rejects, or a JSON array of activities. *)
Inductive cache_file : Type :=
| NoFile
| Garbage
| Stored (activities : list activity).

Inductive level : Type := INFO | WARNING | ERROR.

(** The part of the file system and of the log the downloader touches. *)
Record world : Type := {
  token_file : option tokens;
  activities_file : cache_file;
  log : list (level * string)
}.

(** An object yielded by [client.get_activities]: what its two
    serialisation methods do. *)
Record strava_model : Type := {
  model_dump : result activity;
  dict : result activity
}.

(** The iterator [client.get_activities] returns: the objects it yields,
    then normal exhaustion or an exception. *)
Record activity_generator : Type := {
  yielded : list strava_model;
  failure : option exn
}.

(** The external collaborators: the clock and the remote service. *)
Record remote : Type := {
  time : float;
  refresh_access_token : string -> result tokens;
  get_activities : tokens -> option string -> option Z -> activity_generator
}.

Definition TOKEN_FILE : string := "strava/strava_tokens.json".
Definition ACTIVITIES_FILE : string := "data/activities.json".

Definition logging (lv : level) (msg : string) : M world unit :=
  fun w =>
    ({| token_file := token_file w;
        activities_file := activities_file w;
        log := log w ++ [(lv, msg)] |}, Ok tt).

Definition write_tokens (t : tokens) : M world unit :=
  fun w =>
    ({| token_file := Some t;
        activities_file := activities_file w;
        log := log w |}, Ok tt).

Definition write_activities (l : list activity) : M world unit :=
  fun w =>
    ({| token_file := token_file w;
        activities_file := Stored l;
        log := log w |}, Ok tt).

Definition load_tokens : M world (option tokens) :=
  fun w =>
    match token_file w with
    | None =>
        (logging ERROR
           (TOKEN_FILE ++ " not found. Please run authenticate.py first.") ;;;
         ret None) w
    | Some t => (w, Ok (Some t))
    end.

Definition save_tokens (t : tokens) : M world unit :=
  write_tokens t ;;;
  logging INFO ("Tokens updated and saved to " ++ TOKEN_FILE).

(** The client is the credential it carries. *)
Definition get_client (r : remote) : M world (option tokens) :=
  t <~ load_tokens ;;
  match t with
  | None => ret None
  | Some tk =>
      if num_gt (NFloat (time r)) (NInt (expires_at tk - 300)) then
        logging INFO "Access token expired or expiring soon. Refreshing..." ;;;
        match refresh_access_token r (refresh_token tk) with
        | Ok tk' => save_tokens tk' ;;; ret (Some tk')
        | Raise e =>
            logging ERROR ("Failed to refresh token: " ++ exn_message e) ;;;
            ret None
        end
      else ret (Some tk)
  end.

Definition load_cached_activities : M world (list activity) :=
  fun w =>
    match activities_file w with
    | NoFile => (w, Ok [])
    | Garbage =>
        (logging WARNING
           "Activity cache file is corrupted or empty. Starting fresh." ;;;
         ret []) w
    | Stored l => (w, Ok l)
    end.

(** The sort key of both sorts: [lambda x: x.get('start_date', '')]. *)
Definition start_date_key (x : activity) : option string :=
  get_default (f_start_date x) "".

Definition save_activities (activities : list activity) : M world unit :=
  sorted <~ lift (list_sort start_date_key activities) ;;
  write_activities sorted ;;;
  logging INFO ("Saved " ++ str_of_int (Z.of_nat (List.length sorted))
                ++ " activities to " ++ ACTIVITIES_FILE).

(** Lines 99-104: the cache sorted in place and the cursor [after]. *)
Definition latest_start_date (cached_activities : list activity)
  : result (list activity * option string) :=
  match cached_activities with
  | [] => Ok ([], None)
  | _ =>
      sorted <- list_sort start_date_key cached_activities ;;
      latest_activity <- last_item sorted ;;
      Ok (sorted, get (f_start_date latest_activity))
  end.

(** Lines 121-126: [model_dump], with [dict] as the fallback. *)
Definition serialize (a : strava_model) : result activity :=
  match model_dump a with
  | Raise AttributeError => dict a
  | r => r
  end.

(** Lines 118-129: the loop over the generator. *)
Fixpoint fetch_loop (items : list strava_model) (failure : option exn)
    (new_activities : list activity) : M world (list activity) :=
  match items with
  | [] =>
      match failure with
      | None => ret new_activities
      | Some e => raise e
      end
  | a :: items' =>
      activity_data <~ lift (serialize a) ;;
      logging INFO ("Fetched new activity: "
                    ++ str_of_opt (get (f_name activity_data)) ++ " ("
                    ++ str_of_opt (get (f_start_date activity_data)) ++ ")") ;;;
      fetch_loop items' failure (new_activities ++ [activity_data])
  end.

(** Lines 135-139: the dictionary comprehension and the update loop. *)
Fixpoint activity_map (d : py_dict) (l : list activity) : result py_dict :=
  match l with
  | [] => Ok d
  | a :: l' => k <- getitem "id" (f_id a) ;; activity_map (dict_set k a d) l'
  end.

(** Lines 135-142: the deduplicated union, before it is sorted. *)
Definition all_activities (cached_activities new_activities : list activity)
  : result (list activity) :=
  d <- activity_map [] cached_activities ;;
  d' <- activity_map d new_activities ;;
  Ok (dict_values d').

(** Lines 113-146: the body of the [try]. *)
Definition fetch_and_save (r : remote) (client : tokens)
    (cached_activities : list activity) (after : option string)
    (limit : option Z) : M world unit :=
  let g := get_activities r client after limit in
  new_activities <~ fetch_loop (yielded g) (failure g) [] ;;
  logging INFO ("Downloaded " ++ str_of_int (Z.of_nat (List.length new_activities))
                ++ " new activities.") ;;;
  match new_activities with
  | [] => logging INFO "No new activities to save."
  | _ =>
      all <~ lift (all_activities cached_activities new_activities) ;;
      save_activities all
  end.

(** [try: m except Exception as e: handler e] *)
Definition try_except {S : Type} (m : M S unit) (handler : exn -> M S unit)
  : M S unit :=
  fun s =>
    match m s with
    | (s', Ok tt) => (s', Ok tt)
    | (s', Raise (SystemExit c)) => (s', Raise (SystemExit c))
    | (s', Raise e) => handler e s'
    end.

Definition download_activities (r : remote) (limit : option Z) : M world unit :=
  client <~ get_client r ;;
  match client with
  | None => ret tt
  | Some c =>
      cached <~ load_cached_activities ;;
      sorted_and_cursor <~ lift (latest_start_date cached) ;;
      let '(cached_activities, after) := sorted_and_cursor in
      when (truthy_str after)
        (logging INFO ("Checking for activities after "
                       ++ str_of_opt after ++ "...")) ;;;
      when (negb (truthy_str after))
        (logging INFO
           "No cached activities found. Downloading all (or up to limit)...") ;;;
      try_except (fetch_and_save r c cached_activities after limit)
        (fun e => logging ERROR ("Error fetching activities: " ++ exn_message e))
  end.

(** ** Formatting and calendar functions of the Python library *)

(** [f"{n:02d}"]: the decimal digits, padded with a zero to width two. *)
Definition format_02d (n : Z) : string :=
  let s := str_of_int n in
  if (String.length s <? 2)%nat then "0" ++ s else s.

(** The integer nearest to [m * 2^e] for a positive [m], ties to even. *)
Definition round_half_even (m e : Z) : Z :=
  if 0 <=? e then m * 2 ^ e
  else
    let d := 2 ^ (- e) in
    let q := m / d in
    let r := m mod d in
    match 2 * r ?= d with
    | Lt => q
    | Gt => q + 1
    | Eq => if Z.even q then q else q + 1
    end.

(** [f"{x:.1f}"] for a [float]: the decimal with one fractional digit
    nearest to the exact value of [x]. *)
Definition format_1f (x : float) : string :=
  match Prim2SF x with
  | S754_nan => "nan"
  | S754_infinity s => if s then "-inf" else "inf"
  | S754_zero s => if s then "-0.0" else "0.0"
  | S754_finite s m e =>
      let n := round_half_even (Z.pos m * 10) e in
      (if s then "-" else "") ++ str_of_int (n / 10) ++ "."
        ++ str_of_int (n mod 10)
  end.

(** A [datetime.datetime] without time zone. *)
Record datetime : Type := {
  dt_year : Z;
  dt_month : Z;
  dt_day : Z;
  dt_hour : Z;
  dt_minute : Z;
  dt_second : Z
}.

Definition is_leap (y : Z) : bool :=
  ((y mod 4 =? 0) && negb (y mod 100 =? 0)) || (y mod 400 =? 0).

Definition days_in_month (y m : Z) : Z :=
  if m =? 2 then (if is_leap y then 29 else 28)
  else if (m =? 4) || (m =? 6) || (m =? 9) || (m =? 11) then 30
  else 31.

Definition days_before_year (year : Z) : Z :=
  let y := year - 1 in
  y * 365 + y / 4 - y / 100 + y / 400.

Definition days_before_month (year month : Z) : Z :=
  fold_right Z.add 0
    (map (fun m => days_in_month year (Z.of_nat m))
       (seq 1 (Z.to_nat (month - 1)))).

Definition ymd2ord (year month day : Z) : Z :=
  days_before_year year + days_before_month year month + day.

Definition isoweek1monday (year : Z) : Z :=
  let firstday := ymd2ord year 1 1 in
  let firstweekday := (firstday + 6) mod 7 in
  let week1monday := firstday - firstweekday in
  if 3 <? firstweekday then week1monday + 7 else week1monday.

(** [dt.isocalendar()[:2]]: the ISO year and the ISO week number. *)
Definition isocalendar (dt : datetime) : Z * Z :=
  let year := dt_year dt in
  let today := ymd2ord year (dt_month dt) (dt_day dt) in
  let week := (today - isoweek1monday year) / 7 in
  if week <? 0 then
    (year - 1, (today - isoweek1monday (year - 1)) / 7 + 1)
  else if (52 <=? week) && (isoweek1monday (year + 1) <=? today) then
    (year + 1, 1)
  else (year, week + 1).

(** [posixpath.join(a, b)] for a relative [b]. *)
Fixpoint ends_with_slash (a : string) : bool :=
  match a with
  | EmptyString => false
  | String c EmptyString => Ascii.eqb c "/"
  | String _ a' => ends_with_slash a'
  end.

Definition path_join (a b : string) : string :=
  if (a =? "")%string || ends_with_slash a then a ++ b else a ++ "/" ++ b.

(** ** [plots/generate_yearly_summary.py] *)

Record args : Type := {
  year : Z;
  data : string;
  output : string
}.

(** The output of [clean_activity]. *)
Record cleaned : Type := {
  c_summary_polyline : option string;
  c_date : option string
}.

(** The [stats] dictionary: every value is a formatted string. *)
Record stats : Type := {
  totalRuns : string;
  totalDistance : string;
  maxDistance : string;
  avgDistance : string;
  runsPerWeek : string;
  avgPace : string
}.

(** [data_for_js], the payload written to [templates/data.js]. *)
Record payload : Type := {
  p_year : Z;
  p_runs : list cleaned;
  p_mainMapRuns : list cleaned;
  p_stats : stats;
  p_boundingBox : list (list float)
}.

(** What the summary script reads and what it leaves behind: the file
    [--data] names, whether the [--output] directory exists, the lines
    printed, the payload in [templates/data.js] and the screenshots saved. *)
Record desk : Type := {
  data_file : cache_file;
  output_dir : bool;
  stdout : list string;
  data_js : option payload;
  screenshots : list string
}.

Definition print (line : string) : M desk unit :=
  fun d =>
    ({| data_file := data_file d;
        output_dir := output_dir d;
        stdout := stdout d ++ [line];
        data_js := data_js d;
        screenshots := screenshots d |}, Ok tt).

Definition makedirs : M desk unit :=
  fun d =>
    ({| data_file := data_file d;
        output_dir := true;
        stdout := stdout d;
        data_js := data_js d;
        screenshots := screenshots d |}, Ok tt).

Definition write_data_js (p : payload) : M desk unit :=
  fun d =>
    ({| data_file := data_file d;
        output_dir := output_dir d;
        stdout := stdout d;
        data_js := Some p;
        screenshots := screenshots d |}, Ok tt).

Definition screenshot (path : string) : M desk unit :=
  fun d =>
    ({| data_file := data_file d;
        output_dir := output_dir d;
        stdout := stdout d;
        data_js := data_js d;
        screenshots := screenshots d ++ [path] |}, Ok tt).

(** [json.load(f)] on the data file, which exists at this point. *)
Definition json_load : M desk (list activity) :=
  fun d =>
    match data_file d with
    | Stored l => (d, Ok l)
    | NoFile | Garbage => (d, Raise JSONDecodeError)
    end.

(** The bounding box of the Cardiff area, [[minLon, minLat], [maxLon, maxLat]]. *)
(** The doubles nearest to -3.32322, 51.38586, -3.14065 and 51.51634. *)
Definition min_lon : float := (-0x1.a95f45e0b4e12p+1)%float.
Definition min_lat : float := 0x1.9b163dc486ad3p+5%float.
Definition max_lon : float := (-0x1.9200d1b71758ep+1)%float.
Definition max_lat : float := 0x1.9c2176ddaceeep+5%float.
Definition bbox : list (list float) :=
  [[min_lon; min_lat]; [max_lon; max_lat]].

(** The accumulators of the statistics loop. *)
Record totals : Type := {
  total_dist_meters : num;
  max_dist_meters : num;
  total_seconds : num;
  weeks_active : list (Z * Z);
  main_map_activities : list activity
}.

Definition totals0 : totals :=
  {| total_dist_meters := NInt 0;
     max_dist_meters := NInt 0;
     total_seconds := NInt 0;
     weeks_active := [];
     main_map_activities := [] |}.

(** An operand of [+=]: [None] is not a number. *)
Definition operand (v : option num) : result num :=
  match v with
  | Some n => Ok n
  | None => Raise TypeError
  end.

(** [s.add(x)] on a set kept as a duplicate-free list. *)
Definition set_add (x : Z * Z) (s : list (Z * Z)) : list (Z * Z) :=
  if existsb (fun y => (fst x =? fst y) && (snd x =? snd y)) s
  then s else s ++ [x].

(** Lines 84-88: whether the start point lies in the bounding box. *)
Definition in_main_map (start_latlng : option (list num)) : bool :=
  match start_latlng with
  | Some [lat; lon] =>
      num_le (NFloat min_lat) lat && num_le lat (NFloat max_lat)
      && num_le (NFloat min_lon) lon && num_le lon (NFloat max_lon)
  | _ => false
  end.

(** Lines 105-111: the average pace. *)
Definition avg_pace_str (total_seconds total_dist_meters : num)
  : result string :=
  if num_gt total_dist_meters (NInt 0) then
    q <- num_truediv total_seconds total_dist_meters ;;
    k <- num_truediv (NInt 1000) (NInt 60) ;;
    let avg_pace_decimal := (q * k)%float in
    pace_min <- int_of_float avg_pace_decimal ;;
    rest <- num_sub (NFloat avg_pace_decimal) (NInt pace_min) ;;
    scaled <- num_mul rest (NInt 60) ;;
    scaled_f <- to_float scaled ;;
    pace_sec <- int_of_float scaled_f ;;
    Ok (str_of_int pace_min ++ ":" ++ format_02d pace_sec ++ " /km")
  else Ok "0:00 /km".

(** Lines 127-131. *)
Definition clean_activity (act : activity) : result cleaned :=
  polyline <-
    match get_default (f_map act) {| summary_polyline := Absent |} with
    | Some m => Ok (get (summary_polyline m))
    | None => Raise AttributeError
    end ;;
  Ok {| c_summary_polyline := polyline;
        c_date := get (f_start_date_local act) |}.

Fixpoint map_result {A B : Type} (f : A -> result B) (l : list A)
  : result (list B) :=
  match l with
  | [] => Ok []
  | x :: l' => y <- f x ;; ys <- map_result f l' ;; Ok (y :: ys)
  end.

(** [v == s] for a [str]-or-[None] [v]. *)
Definition py_eq_str (v : option string) (s : string) : bool :=
  match v with
  | Some x => (x =? s)%string
  | None => false
  end.

(** [os.path.exists(data_path)] *)
Definition file_exists (f : cache_file) : bool :=
  match f with
  | NoFile => false
  | Garbage | Stored _ => true
  end.

(** Reading the state without changing it. *)
Definition inspect {S A : Type} (f : S -> A) : M S A := fun s => (s, Ok (f s)).

(** [f"{x:.1f}"] for an [int] or a [float]. *)
Definition format_1f_num (n : num) : result string :=
  x <- to_float n ;; Ok (format_1f x).

(** [str(stats)], the [repr] of a dictionary of strings without quotes in
    them. *)
Definition repr_stats (s : stats) : string :=
  "{'totalRuns': '" ++ totalRuns s
  ++ "', 'totalDistance': '" ++ totalDistance s
  ++ "', 'maxDistance': '" ++ maxDistance s
  ++ "', 'avgDistance': '" ++ avgDistance s
  ++ "', 'runsPerWeek': '" ++ runsPerWeek s
  ++ "', 'avgPace': '" ++ avgPace s ++ "'}".

(** Lines 91-120: the statistics computed from the accumulators. *)
Definition compute_stats (t : totals) (total_runs : Z) : result stats :=
  total_dist_km <- num_truediv (total_dist_meters t) (NFloat 1000) ;;
  max_dist_km <- num_truediv (max_dist_meters t) (NFloat 1000) ;;
  avg_dist_km <-
    (if 0 <? total_runs
     then x <- num_truediv (NFloat total_dist_km) (NInt total_runs) ;;
          Ok (NFloat x)
     else Ok (NInt 0)) ;;
  runs_per_week <- num_truediv (NInt total_runs) (NFloat 52) ;;
  avg_speed_mps <-
    (if num_gt (total_seconds t) (NInt 0)
     then x <- num_truediv (total_dist_meters t) (total_seconds t) ;;
          Ok (NFloat x)
     else Ok (NInt 0)) ;;
  pace <- avg_pace_str (total_seconds t) (total_dist_meters t) ;;
  avg_dist <- format_1f_num avg_dist_km ;;
  Ok {| totalRuns := str_of_int total_runs;
        totalDistance := format_1f total_dist_km ++ " km";
        maxDistance := format_1f max_dist_km ++ " km";
        avgDistance := avg_dist ++ " km";
        runsPerWeek := format_1f runs_per_week;
        avgPace := pace |}.

Section Summary.
(** [datetime.strptime(s, '%Y-%m-%dT%H:%M:%SZ')] on a string: the parsed
    value, or [None] when it raises [ValueError].  The properties below
    hold whatever strings the library accepts. *)
Variable strptime : string -> option datetime.

(** The call on a value read with [get]: [None] is not a string. *)
Definition parse (start_date : option string) : result datetime :=
  match start_date with
  | None => Raise TypeError
  | Some s =>
      match strptime s with
      | Some dt => Ok dt
      | None => Raise ValueError
      end
  end.

(** Lines 31-43: the selection of the year's runs. *)
Fixpoint select_year (year : Z) (activities year_activities : list activity)
  : M desk (list activity) :=
  match activities with
  | [] => ret year_activities
  | activity :: rest =>
      if py_eq_str (get (f_type activity)) "Run" then
        let start_date := get (f_start_date_local activity) in
        if truthy_str start_date then
          match parse start_date with
          | Ok dt =>
              if dt_year dt =? year
              then select_year year rest (year_activities ++ [activity])
              else select_year year rest year_activities
          | Raise ValueError =>
              print ("Warning: Could not parse date "
                     ++ str_of_opt start_date) ;;;
              select_year year rest year_activities
          | Raise e => raise e
          end
        else select_year year rest year_activities
      else select_year year rest year_activities
  end.

(** Lines 69-88: one iteration of the statistics loop.  The parse of
    lines 77-78 has no handler around it. *)
Definition stats_step (t : totals) (act : activity) : result totals :=
  let dist := get_default (f_distance act) (NInt 0) in
  let moving_time := get_default (f_moving_time act) (NInt 0) in
  d <- operand dist ;;
  total_dist <- num_add (total_dist_meters t) d ;;
  m <- operand moving_time ;;
  total_secs <- num_add (total_seconds t) m ;;
  let max_dist := if num_gt d (max_dist_meters t) then d
                  else max_dist_meters t in
  let start_date := get (f_start_date_local act) in
  dt <- parse start_date ;;
  let year_week := isocalendar dt in
  Ok {| total_dist_meters := total_dist;
        max_dist_meters := max_dist;
        total_seconds := total_secs;
        weeks_active := set_add year_week (weeks_active t);
        main_map_activities :=
          if in_main_map (get (f_start_latlng act))
          then main_map_activities t ++ [act]
          else main_map_activities t |}.

Fixpoint stats_loop (t : totals) (year_activities : list activity)
  : result totals :=
  match year_activities with
  | [] => Ok t
  | act :: rest => t' <- stats_step t act ;; stats_loop t' rest
  end.

(** Lines 51-185: statistics, payload and screenshot for a year with at
    least one run. *)
Definition summarize (a : args) (year_activities : list activity)
  : M desk unit :=
  t <~ lift (stats_loop totals0 year_activities) ;;
  st <~ lift (compute_stats t (Z.of_nat (List.length year_activities))) ;;
  print ("Stats: " ++ repr_stats st) ;;;
  print ("Runs in main map area: "
         ++ str_of_int (Z.of_nat (List.length (main_map_activities t)))) ;;;
  runs <~ lift (map_result clean_activity year_activities) ;;
  main_map_runs <~ lift (map_result clean_activity (main_map_activities t)) ;;
  write_data_js {| p_year := year a;
                   p_runs := runs;
                   p_mainMapRuns := main_map_runs;
                   p_stats := st;
                   p_boundingBox := bbox |} ;;;
  let output_file_path :=
    path_join (output a) ("yearly_summary_" ++ str_of_int (year a) ++ ".png") in
  print "Generating screenshot..." ;;;
  screenshot output_file_path ;;;
  print ("Saved summary to " ++ output_file_path).

Definition main (a : args) : M desk unit :=
  found <~ inspect (fun d => file_exists (data_file d)) ;;
  if negb found then
    print ("Error: Data file not found at " ++ data a) ;;;
    raise (SystemExit 1)
  else
    has_output_dir <~ inspect output_dir ;;
    when (negb has_output_dir) makedirs ;;;
    print ("Loading data from " ++ data a ++ "...") ;;;
    activities <~ json_load ;;
    year_activities <~ select_year (year a) activities [] ;;
    print ("Found " ++ str_of_int (Z.of_nat (List.length year_activities))
           ++ " runs for year " ++ str_of_int (year a)) ;;;
    match year_activities with
    | [] => print "No activities found. Exiting."
    | _ => summarize a year_activities
    end.
End Summary.

(** ** An executable reading of [strptime] on ASCII timestamps

    The format ['%Y-%m-%dT%H:%M:%SZ'] as the library's regular expression
    reads it on ASCII input: four digits for the year, one or two for the
    other fields, letters matched without regard to case, then the checks of
    the [datetime] constructor.  It instantiates [strptime] in the examples. *)
Definition digit_of (c : ascii) : option Z :=
  let n := Z.of_N (N_of_ascii c) in
  if (48 <=? n) && (n <=? 57) then Some (n - 48) else None.

(** A field with two-character and one-character alternatives. *)
Definition two_or_one (two : ascii -> ascii -> option Z)
    (one : ascii -> option Z) (s : string) : option (Z * string) :=
  match s with
  | EmptyString => None
  | String a EmptyString =>
      match one a with
      | Some v => Some (v, EmptyString)
      | None => None
      end
  | String a (String b r) =>
      match two a b with
      | Some v => Some (v, r)
      | None =>
          match one a with
          | Some v => Some (v, String b r)
          | None => None
          end
      end
  end.

(** Two decimal digits [a b] with [a] in [lo..hi]. *)
Definition tens_in (lo hi : Z) (a b : ascii) : option Z :=
  match digit_of a, digit_of b with
  | Some x, Some y => if (lo <=? x) && (x <=? hi) then Some (10 * x + y) else None
  | _, _ => None
  end.

(** Two decimal digits with the value in [lo..hi]. *)
Definition value_in (lo hi : Z) (a b : ascii) : option Z :=
  match digit_of a, digit_of b with
  | Some x, Some y =>
      let v := 10 * x + y in
      if (lo <=? v) && (v <=? hi) then Some v else None
  | _, _ => None
  end.

Definition nonzero_digit (a : ascii) : option Z :=
  match digit_of a with
  | Some x => if 1 <=? x then Some x else None
  | None => None
  end.

(** [%m]: [1[0-2]|0[1-9]|[1-9]] *)
Definition field_m : string -> option (Z * string) :=
  two_or_one (value_in 1 12) nonzero_digit.

(** [%d]: [3[0-1]|[1-2]\d|0[1-9]|[1-9]| [1-9]] *)
Definition field_d : string -> option (Z * string) :=
  two_or_one
    (fun a b => if Ascii.eqb a " " then nonzero_digit b else value_in 1 31 a b)
    nonzero_digit.

(** [%H]: [2[0-3]|[0-1]\d|\d] *)
Definition field_H : string -> option (Z * string) :=
  two_or_one (value_in 0 23) digit_of.

(** [%M]: [[0-5]\d|\d] *)
Definition field_M : string -> option (Z * string) :=
  two_or_one (tens_in 0 5) digit_of.

(** [%S]: [6[0-1]|[0-5]\d|\d] *)
Definition field_S : string -> option (Z * string) :=
  two_or_one (value_in 0 61) digit_of.

(** [%Y]: [\d\d\d\d] *)
Definition field_Y (s : string) : option (Z * string) :=
  match s with
  | String a (String b (String c (String d r))) =>
      match digit_of a, digit_of b, digit_of c, digit_of d with
      | Some w, Some x, Some y, Some z =>
          Some (1000 * w + 100 * x + 10 * y + z, r)
      | _, _, _, _ => None
      end
  | _ => None
  end.

(** A literal character of the format. *)
Definition literal (lower upper : ascii) (s : string) : option string :=
  match s with
  | String c r => if Ascii.eqb c lower || Ascii.eqb c upper then Some r else None
  | EmptyString => None
  end.

Definition obind {A B : Type} (m : option A) (k : A -> option B) : option B :=
  match m with
  | Some a => k a
  | None => None
  end.

Definition strptime_ascii (s : string) : option datetime :=
  obind (field_Y s) (fun '(yy, s) =>
  obind (literal "-" "-" s) (fun s =>
  obind (field_m s) (fun '(mo, s) =>
  obind (literal "-" "-" s) (fun s =>
  obind (field_d s) (fun '(dd, s) =>
  obind (literal "t" "T" s) (fun s =>
  obind (field_H s) (fun '(hh, s) =>
  obind (literal ":" ":" s) (fun s =>
  obind (field_M s) (fun '(mi, s) =>
  obind (literal ":" ":" s) (fun s =>
  obind (field_S s) (fun '(ss, s) =>
  obind (literal "z" "Z" s) (fun s =>
  match s with
  | EmptyString =>
      if (1 <=? yy) && (dd <=? days_in_month yy mo) && (ss <=? 59)
      then Some {| dt_year := yy; dt_month := mo; dt_day := dd;
                   dt_hour := hh; dt_minute := mi; dt_second := ss |}
      else None
  | String _ _ => None
  end)))))))))))).

(** ** [strava/authenticate.py] *)

(** The dictionary [exchange_code_for_token] returns. *)
Record token_response : Type := {
  r_access_token : field string;
  r_refresh_token : field string;
  r_expires_at : field Z
}.

(** The JSON object written to [strava_tokens.json]; [None] is [null]. *)
Record token_data : Type := {
  d_access_token : option string;
  d_refresh_token : option string;
  d_expires_at : option Z
}.

(** What the script touches: the token file and the terminal. *)
Record console : Type := {
  token_json : option token_data;
  screen : list string
}.

(** The environment of the script: the two variables of [.env], the URL
    the client builds, the code the user types and the service's answer to
    it. *)
Record authorizer : Type := {
  CLIENT_ID : option string;
  CLIENT_SECRET : option string;
  authorization_url : string;
  typed_code : string;
  exchange_code_for_token : string -> result token_response
}.

Definition nl : string := String "010"%char EmptyString.

(** [print(line)], and the prompt of [input]. *)
Definition say (line : string) : M console unit :=
  fun c => ({| token_json := token_json c; screen := screen c ++ [line] |},
            Ok tt).

Definition write_token_json (t : token_data) : M console unit :=
  fun c => ({| token_json := Some t; screen := screen c |}, Ok tt).

(** Lines 39-56: the body of the [try]. *)
Definition exchange_and_save (env : authorizer) (code : string)
  : M console unit :=
  token_response <~ lift (exchange_code_for_token env code) ;;
  access <~ lift (getitem "access_token" (r_access_token token_response)) ;;
  refresh <~ lift (getitem "refresh_token" (r_refresh_token token_response)) ;;
  expires <~ lift (getitem "expires_at" (r_expires_at token_response)) ;;
  write_token_json {| d_access_token := access;
                      d_refresh_token := refresh;
                      d_expires_at := expires |} ;;;
  say (nl ++ "Authentication successful! Tokens saved to '"
          ++ TOKEN_FILE ++ "'.").

Definition authenticate (env : authorizer) : M console unit :=
  say (nl ++ "Please visit this URL to authorize the application:" ++ nl ++ nl
          ++ authorization_url env ++ nl) ;;;
  say "After authorizing, you will be redirected to a URL like 'http://localhost:8000/authorized?state=&code=...'" ;;;
  say "Copy the 'code' parameter value from that URL and paste it here." ;;;
  say (nl ++ "Enter the code: ") ;;;
  let code := typed_code env in
  try_except (exchange_and_save env code)
    (fun e => say (nl ++ "Error during authentication: " ++ exn_message e)).

(** The script: the check of lines 17-19, then [authenticate()]. *)
Definition authenticate_script (env : authorizer) : M console unit :=
  if negb (truthy_str (CLIENT_ID env)) || negb (truthy_str (CLIENT_SECRET env))
  then
    say "Error: STRAVA_CLIENT_ID and STRAVA_CLIENT_SECRET must be set in .env file." ;;;
    raise (SystemExit 1)
  else authenticate env.

(** A terminal session in which the service grants the tokens. *)
Definition granted : authorizer :=
  {| CLIENT_ID := Some "12345";
     CLIENT_SECRET := Some "s3cret";
     authorization_url := "https://www.strava.com/oauth/authorize?client_id=12345";
     typed_code := "c0de";
     exchange_code_for_token := fun _ =>
       Ok {| r_access_token := Val "a";
             r_refresh_token := Val "r";
             r_expires_at := Val 2000000000 |} |}.

Definition blank_console : console := {| token_json := None; screen := [] |}.

(** * Notions the properties are stated with *)

(** ** Order on sort keys *)

(** [a <= b] on strings, as the sort sees it: not [b < a]. *)
Definition str_le (a b : string) : Prop := (b <? a)%string = false.

(** [x] is not after [y] under the sort key [key]: both keys are strings
    and the first is not greater. *)
Definition key_le {A : Type} (key : A -> option string) (x y : A) : Prop :=
  exists a b, key x = Some a /\ key y = Some b /\ str_le a b.

(** Non-decreasing by [key]: every element is not after any later one. *)
Definition non_decreasing {A : Type} (key : A -> option string) (l : list A)
  : Prop :=
  StronglySorted (key_le key) l.

(** The key the specification names: [start_date_local], read like the
    sort key of the code. *)
Definition start_date_local_key (x : activity) : option string :=
  get_default (f_start_date_local x) "".

(** ** Identifiers and the dictionary *)

(** The dictionary key of a record that has an [id]. *)
Definition id_key (a : activity) : option Z := get (f_id a).

Definition has_id (a : activity) : Prop := f_id a <> Absent.

(** [d.get(k)] on the dictionary. *)
Fixpoint dict_get (k : option Z) (d : py_dict) : option activity :=
  match d with
  | [] => None
  | (k', v) :: d' => if key_eqb k' k then Some v else dict_get k d'
  end.

(** The last record of [l] whose id is [k]. *)
Fixpoint last_with_id (k : option Z) (l : list activity) : option activity :=
  match l with
  | [] => None
  | a :: l' =>
      match last_with_id k l' with
      | Some b => Some b
      | None => if key_eqb (id_key a) k then Some a else None
      end
  end.

(** The dictionary entry of a record. *)
Definition entry (a : activity) : option Z * activity := (id_key a, a).

(** Every entry of the dictionary sits under the id of its record, and no
    key occurs twice. *)
Definition dict_ok (d : py_dict) : Prop :=
  NoDup (map fst d)
  /\ forall k v, In (k, v) d -> has_id v /\ id_key v = k.

(** ** Statements that leave the activity cache file alone *)

Definition keeps_cache {A : Type} (m : M world A) : Prop :=
  forall w, activities_file (fst (m w)) = activities_file w.

(** ** The pace as the specification words it *)

(** The pace as the specification words it, in binary64 arithmetic: the
    minutes per kilometre are (seconds / metres) x (1000 / 60). *)
Definition pace_minutes_per_km (seconds meters : num) : result float :=
  ratio <- num_truediv seconds meters ;;
  per_km <- num_truediv (NInt 1000) (NInt 60) ;;
  Ok (ratio * per_km)%float.

(** [M:SS /km]: the minutes are the pace truncated, the seconds are the
    remainder times sixty, truncated and padded to two digits. *)
Definition format_pace (pace : float) : result string :=
  minutes <- int_of_float pace ;;
  remainder <- num_sub (NFloat pace) (NInt minutes) ;;
  sixtieths <- num_mul remainder (NInt 60) ;;
  sixtieths <- to_float sixtieths ;;
  seconds <- int_of_float sixtieths ;;
  Ok (str_of_int minutes ++ ":" ++ format_02d seconds ++ " /km").

(** ** The selection as a filter *)

(** The desk after some more lines were printed. *)
Definition printed (lines : list string) (d : desk) : desk :=
  {| data_file := data_file d;
     output_dir := output_dir d;
     stdout := stdout d ++ lines;
     data_js := data_js d;
     screenshots := screenshots d |}.

Section Selection.
Variable strptime : string -> option datetime.

(** The record is a run whose timestamp is a non-empty string. *)
Definition dated_run (a : activity) : bool :=
  py_eq_str (get (f_type a)) "Run" && truthy_str (get (f_start_date_local a)).

(** The records the selection keeps, and those it warns about. *)
Definition selects (year : Z) (a : activity) : bool :=
  dated_run a
  && match parse strptime (get (f_start_date_local a)) with
     | Ok dt => dt_year dt =? year
     | Raise _ => false
     end.

Definition warns (a : activity) : bool :=
  dated_run a
  && match parse strptime (get (f_start_date_local a)) with
     | Ok _ => false
     | Raise _ => true
     end.

Definition warning (a : activity) : string :=
  "Warning: Could not parse date " ++ str_of_opt (get (f_start_date_local a)).
End Selection.

(** ** Sample data

    Two runs recorded in different time zones: the one in New York starts
    later in UTC ([start_date]) and earlier on the local clock
    ([start_date_local]) than the one in London. *)
Definition run (i : Z) (utc local : string) (meters : float) (seconds : Z)
  : activity :=
  {| f_id := Val i;
     f_name := Val "Morning Run";
     f_type := Val "Run";
     f_start_date := Val utc;
     f_start_date_local := Val local;
     f_distance := Val (NFloat meters);
     f_moving_time := Val (NInt seconds);
     f_start_latlng := Null;
     f_map := Val {| summary_polyline := Null |} |}.

Definition london_run : activity :=
  run 1 "2025-01-05T10:00:00Z" "2025-01-05T10:00:00Z" 10000 3000.

Definition new_york_run : activity :=
  run 2 "2025-01-05T12:00:00Z" "2025-01-05T07:00:00Z" 5000 1500.

Definition sample_tokens : tokens :=
  {| access_token := "a"; refresh_token := "r"; expires_at := 2000000000 |}.

Definition first_sync : world :=
  {| token_file := Some sample_tokens; activities_file := NoFile; log := [] |}.

(** The London run fetched again after it was renamed on the service, and
    a run that is new. *)
Definition london_run_renamed : activity :=
  {| f_id := Val 1;
     f_name := Val "Thames Path";
     f_type := Val "Run";
     f_start_date := Val "2025-01-05T10:00:00Z";
     f_start_date_local := Val "2025-01-05T10:00:00Z";
     f_distance := Val (NFloat 10000);
     f_moving_time := Val (NInt 3000);
     f_start_latlng := Null;
     f_map := Val {| summary_polyline := Null |} |}.

Definition cardiff_run : activity :=
  run 3 "2025-01-07T09:00:00Z" "2025-01-07T09:00:00Z" 7000 2100.

(** The downloader on a cache of two runs, against a service that yields
    one record and then times out. *)
Definition synced : world :=
  {| token_file := Some sample_tokens;
     activities_file := Stored [new_york_run; london_run];
     log := [] |}.

Definition yields (a : activity) : strava_model :=
  {| model_dump := Ok a; dict := Raise AttributeError |}.

Definition timing_out : remote :=
  {| time := 1700000000;
     refresh_access_token := fun _ => Raise (CapabilityError "offline");
     get_activities := fun _ _ _ =>
       {| yielded := [yields cardiff_run];
          failure := Some (CapabilityError "timed out") |} |}.

Definition nothing_new : remote :=
  {| time := 1700000000;
     refresh_access_token := fun _ => Raise (CapabilityError "offline");
     get_activities := fun _ _ _ => {| yielded := []; failure := None |} |}.

(** ** A year of sample data *)

Definition last_years_run : activity :=
  run 4 "2024-12-30T09:00:00Z" "2024-12-30T09:00:00Z" 5000 1500.

(** A run whose local timestamp has no seconds, one whose timestamp is
    [null], and a ride. *)
Definition undated_run (i : Z) (local : field string) : activity :=
  {| f_id := Val i;
     f_name := Val "Evening Run";
     f_type := Val "Run";
     f_start_date := Val "2025-02-01T18:00:00Z";
     f_start_date_local := local;
     f_distance := Val (NFloat 8000);
     f_moving_time := Val (NInt 2400);
     f_start_latlng := Null;
     f_map := Absent |}.

Definition ride : activity :=
  {| f_id := Val 7;
     f_name := Val "Commute";
     f_type := Val "Ride";
     f_start_date := Val "2025-03-01T08:00:00Z";
     f_start_date_local := Val "yesterday";
     f_distance := Val (NFloat 12000);
     f_moving_time := Val (NInt 1800);
     f_start_latlng := Null;
     f_map := Absent |}.

Definition ledger : list activity :=
  [last_years_run; london_run; undated_run 5 (Val "2025-02-01T18:00Z");
   undated_run 6 Null; ride; cardiff_run].

Definition desk_with (activities : list activity) : desk :=
  {| data_file := Stored activities;
     output_dir := true;
     stdout := [];
     data_js := None;
     screenshots := [] |}.

Definition for_year (y : Z) : args :=
  {| year := y; data := "data/activities.json"; output := "plots/output" |}.

(** ** Notions for the properties beyond the claims *)

(** The world after some more log records were written. *)
Definition logged (entries : list (level * string)) (w : world) : world :=
  {| token_file := token_file w;
     activities_file := activities_file w;
     log := log w ++ entries |}.

(** Statements that leave the token file alone. *)
Definition keeps_tokens {A : Type} (m : M world A) : Prop :=
  forall w, token_file (fst (m w)) = token_file w.

(** The credential is due for a refresh: less than five minutes are left. *)
Definition expiring (r : remote) (tk : tokens) : bool :=
  num_gt (NFloat (time r)) (NInt (expires_at tk - 300)).

(** Lines 96-151 of [download_activities]: what follows once the client is
    there. *)
Definition sync_with (r : remote) (limit : option Z) (c : tokens)
  : M world unit :=
  cached <~ load_cached_activities ;;
  sorted_and_cursor <~ lift (latest_start_date cached) ;;
  let '(cached_activities, after) := sorted_and_cursor in
  when (truthy_str after)
    (logging INFO ("Checking for activities after "
                   ++ str_of_opt after ++ "...")) ;;;
  when (negb (truthy_str after))
    (logging INFO
       "No cached activities found. Downloading all (or up to limit)...") ;;;
  try_except (fetch_and_save r c cached_activities after limit)
    (fun e => logging ERROR ("Error fetching activities: " ++ exn_message e)).


(** A run that came back from the service without a start time, and a
    cache that holds it. *)
Definition unstamped_run : activity :=
  {| f_id := Val 10;
     f_name := Val "Treadmill";
     f_type := Val "Run";
     f_start_date := Null;
     f_start_date_local := Null;
     f_distance := Val (NFloat 3000);
     f_moving_time := Val (NInt 900);
     f_start_latlng := Null;
     f_map := Null |}.


(** A record without an [id] key. *)
Definition anonymous_run : activity :=
  {| f_id := Absent;
     f_name := Val "Imported";
     f_type := Val "Run";
     f_start_date := Val "2025-01-08T09:00:00Z";
     f_start_date_local := Val "2025-01-08T09:00:00Z";
     f_distance := Val (NFloat 4000);
     f_moving_time := Val (NInt 1300);
     f_start_latlng := Null;
     f_map := Absent |}.

(** The record's sort key is the string [s]. *)
Definition sorts_under {A : Type} (key : A -> option string) (s : string)
    (x : A) : bool :=
  match key x with
  | Some t => (t =? s)%string
  | None => false
  end.

(** A service with two records to send, whatever it is asked. *)
Definition with_news : remote :=
  {| time := 1700000000;
     refresh_access_token := fun _ => Raise (CapabilityError "offline");
     get_activities := fun _ _ _ =>
       {| yielded := [yields london_run_renamed; yields cardiff_run];
          failure := None |} |}.

(** The service answers a fetch alike whatever the credential and the
    cursor. *)
Definition same_answer (r : remote) (limit : option Z) : Prop :=
  forall c after c' after',
    get_activities r c after limit = get_activities r c' after' limit.

(** The desk once [os.makedirs(output_dir)] has run. *)
Definition with_output_dir (d : desk) : desk :=
  {| data_file := data_file d;
     output_dir := true;
     stdout := stdout d;
     data_js := data_js d;
     screenshots := screenshots d |}.

(** A desk without the data file, and one whose data file is not JSON. *)
Definition empty_desk : desk :=
  {| data_file := NoFile;
     output_dir := false;
     stdout := [];
     data_js := None;
     screenshots := [] |}.

Definition scrambled_desk : desk :=
  {| data_file := Garbage;
     output_dir := false;
     stdout := [];
     data_js := None;
     screenshots := [] |}.

(** The moving time of a record when it is an [int], zero when the key is
    missing. *)
Definition whole_seconds (a : activity) : Z :=
  match f_moving_time a with
  | Val (NInt z) => z
  | _ => 0
  end.

(** The start point of the record lies in the bounding box. *)
Definition starts_in_main_map (a : activity) : bool :=
  in_main_map (get (f_start_latlng a)).

(** A run that starts in Bute Park, inside the bounding box. *)
Definition bute_park_run : activity :=
  {| f_id := Val 11;
     f_name := Val "Bute Park";
     f_type := Val "Run";
     f_start_date := Val "2025-03-02T09:00:00Z";
     f_start_date_local := Val "2025-03-02T09:00:00Z";
     f_distance := Val (NFloat 6000);
     f_moving_time := Val (NInt 1800);
     f_start_latlng := Val [NFloat 51.5%float; NFloat (-3.1875)%float];
     f_map := Val {| summary_polyline := Val "abc" |} |}.

(** The cleaned form of a record whose [map] is an object or missing. *)
Definition cleaned_of (act : activity) : cleaned :=
  {| c_summary_polyline :=
       match f_map act with
       | Val m => get (summary_polyline m)
       | Absent | Null => None
       end;
     c_date := get (f_start_date_local act) |}.

(** Where the screenshot of the run goes. *)
Definition output_file_path (a : args) : string :=
  path_join (output a) ("yearly_summary_" ++ str_of_int (year a) ++ ".png").

(** The record a cached record gives way to: the last fetched record with
    its id, or itself. *)
Definition refreshed (new : list activity) (a : activity) : activity :=
  match last_with_id (id_key a) new with
  | Some b => b
  | None => a
  end.

(** The same on an entry of the dictionary. *)
Definition refreshed_entry (new : list activity) (e : option Z * activity)
  : option Z * activity :=
  (fst e, match last_with_id (fst e) new with
          | Some b => b
          | None => snd e
          end).

(** ** The authentication dialogue *)

(** The console after [lines] were printed. *)
Definition said (lines : list string) (c : console) : console :=
  {| token_json := token_json c; screen := screen c ++ lines |}.

(** A key is present in the response, possibly with [null]. *)
Definition present {A : Type} (f : field A) : Prop := f <> Absent.

(** The response carries the three keys the script reads. *)
Definition full_grant (resp : token_response) : Prop :=
  present (r_access_token resp) /\ present (r_refresh_token resp)
  /\ present (r_expires_at resp).

(** The first of the three keys, in the order the script reads them, that
    the response lacks. *)
Definition first_missing (resp : token_response) (k : string) : Prop :=
  (r_access_token resp = Absent /\ k = "access_token")
  \/ (present (r_access_token resp) /\ r_refresh_token resp = Absent
      /\ k = "refresh_token")
  \/ (present (r_access_token resp) /\ present (r_refresh_token resp)
      /\ r_expires_at resp = Absent /\ k = "expires_at").

(** The JSON object made of the response's three values. *)
Definition grant_of (resp : token_response) : token_data :=
  {| d_access_token := get (r_access_token resp);
     d_refresh_token := get (r_refresh_token resp);
     d_expires_at := get (r_expires_at resp) |}.

(** Sessions in which the service refuses the code, and in which its answer
    has no [expires_at]. *)
Definition with_exchange (x : string -> result token_response) : authorizer :=
  {| CLIENT_ID := CLIENT_ID granted;
     CLIENT_SECRET := CLIENT_SECRET granted;
     authorization_url := authorization_url granted;
     typed_code := typed_code granted;
     exchange_code_for_token := x |}.

Definition refused : authorizer :=
  with_exchange (fun _ => Raise (CapabilityError "Bad Request")).

Definition short_grant : token_response :=
  {| r_access_token := Val "a";
     r_refresh_token := Null;
     r_expires_at := Absent |}.

Definition old_console : console :=
  {| token_json := Some {| d_access_token := Some "old";
                           d_refresh_token := Some "older";
                           d_expires_at := Some 1 |};
     screen := [] |}.

(** * Properties *)

(** ** The order on sort keys *)

Lemma ltb_lt (a b : string) : (a <? b)%string = true <-> String_as_OT.lt a b.
Proof.
  unfold String.ltb. rewrite <- String_as_OT.cmp_lt. unfold String_as_OT.cmp.
  destruct (a ?= b)%string; split; congruence.
Qed.

Lemma str_le_refl (a : string) : str_le a a.
Proof.
  unfold str_le. destruct (a <? a)%string eqn:E; [|reflexivity].
  apply ltb_lt in E. exfalso. now apply (String_as_OT.lt_not_eq _ _ E).
Qed.

Lemma str_lt_le (a b : string) : (a <? b)%string = true -> str_le a b.
Proof.
  intros H. unfold str_le. destruct (b <? a)%string eqn:E; [|reflexivity].
  apply ltb_lt in H, E. exfalso.
  exact (String_as_OT.lt_not_eq _ _ (String_as_OT.lt_trans _ _ _ H E) eq_refl).
Qed.

Lemma str_le_cases (a b : string) :
  str_le a b -> a = b \/ (a <? b)%string = true.
Proof.
  unfold str_le, String.ltb. rewrite (String.compare_antisym a b).
  destruct (b ?= a)%string eqn:E; simpl; intros H; try discriminate.
  - left. symmetry. now apply String.compare_eq_iff.
  - now right.
Qed.

Lemma str_le_trans (a b c : string) : str_le a b -> str_le b c -> str_le a c.
Proof.
  intros Hab Hbc.
  destruct (str_le_cases _ _ Hab) as [->|Hlt]; [assumption|].
  destruct (str_le_cases _ _ Hbc) as [<-|Hlt']; [assumption|].
  apply str_lt_le. apply ltb_lt in Hlt, Hlt'. apply ltb_lt.
  eapply String_as_OT.lt_trans; eassumption.
Qed.

Lemma str_le_antisym (a b : string) : str_le a b -> str_le b a -> a = b.
Proof.
  intros Hab Hba. destruct (str_le_cases _ _ Hab) as [->|Hlt]; [reflexivity|].
  unfold str_le in Hba. congruence.
Qed.

Lemma str_le_empty (a : string) : str_le "" a.
Proof. unfold str_le, String.ltb. now destruct a. Qed.

Lemma key_le_trans {A : Type} (key : A -> option string) (x y z : A) :
  key_le key x y -> key_le key y z -> key_le key x z.
Proof.
  intros (a & b & Ha & Hb & Hab) (b' & c & Hb' & Hc & Hbc).
  exists a, c. repeat split; try assumption.
  rewrite Hb in Hb'. injection Hb' as <-. eapply str_le_trans; eassumption.
Qed.

(** ** [list.sort] returns the stable sorted permutation *)

Section ListSortFacts.
Context {A : Type} (key : A -> option string).

Lemma py_lt_ok (a b : option string) (r : bool) :
  py_lt a b = Ok r ->
  exists x y, a = Some x /\ b = Some y /\ r = (x <? y)%string.
Proof.
  destruct a as [x|], b as [y|]; simpl; intros H; try discriminate.
  injection H as <-. now exists x, y.
Qed.

Lemma insert_sorted_perm (x : A) (l r : list A) :
  insert_sorted key x l = Ok r -> Permutation (x :: l) r.
Proof.
  revert r. induction l as [|y l IH]; simpl; intros r H.
  - injection H as <-. apply Permutation_refl.
  - destruct (py_lt (key y) (key x)) as [[|]|e]; simpl in H; try discriminate.
    + destruct (insert_sorted key x l) as [r'|e]; simpl in H; try discriminate.
      injection H as <-. apply perm_trans with (y :: x :: l).
      * apply perm_swap.
      * apply perm_skip. now apply IH.
    + injection H as <-. apply Permutation_refl.
Qed.

Lemma insert_sorted_sorted (x : A) (l r : list A) :
  non_decreasing key l -> insert_sorted key x l = Ok r -> non_decreasing key r.
Proof.
  unfold non_decreasing. intros Hs. revert r.
  induction Hs as [|y l Hs IH Hy]; simpl; intros r H.
  - injection H as <-. repeat constructor.
  - destruct (py_lt (key y) (key x)) as [b|e] eqn:E; simpl in H;
      try discriminate.
    apply py_lt_ok in E. destruct E as (ky & kx & Hky & Hkx & ->).
    destruct (ky <? kx)%string eqn:Hlt.
    + destruct (insert_sorted key x l) as [r'|e] eqn:Hi; simpl in H;
        try discriminate.
      injection H as <-. constructor; [now apply IH|].
      apply insert_sorted_perm in Hi.
      eapply Permutation_Forall; [exact Hi|]. constructor; [|assumption].
      exists ky, kx. repeat split; try assumption. now apply str_lt_le.
    + injection H as <-.
      assert (Hxy : key_le key x y) by (now exists kx, ky).
      constructor; [now constructor|]. constructor; [assumption|].
      eapply Forall_impl; [|exact Hy]. intros z Hz.
      eapply key_le_trans; eassumption.
Qed.

Lemma list_sort_perm (l s : list A) :
  list_sort key l = Ok s -> Permutation l s.
Proof.
  revert s. induction l as [|x l IH]; simpl; intros s H.
  - injection H as <-. constructor.
  - destruct (list_sort key l) as [s'|e]; simpl in H; try discriminate.
    apply insert_sorted_perm in H. apply perm_trans with (x :: s'); [|assumption].
    apply perm_skip. now apply IH.
Qed.

Lemma list_sort_sorted (l s : list A) :
  list_sort key l = Ok s -> non_decreasing key s.
Proof.
  revert s. induction l as [|x l IH]; simpl; intros s H.
  - injection H as <-. constructor.
  - destruct (list_sort key l) as [s'|e]; simpl in H; try discriminate.
    eapply insert_sorted_sorted; [|exact H]. now apply IH.
Qed.

Lemma insert_sorted_total (x : A) (l : list A) :
  key x <> None -> Forall (fun y => key y <> None) l ->
  exists r, insert_sorted key x l = Ok r.
Proof.
  intros Hx Hl. induction Hl as [|y l Hy Hl IH]; simpl.
  - now eexists.
  - destruct (key y) as [ky|]; [|congruence].
    destruct (key x) as [kx|]; [|congruence]. simpl.
    destruct (ky <? kx)%string.
    + destruct IH as [r ->]. simpl. now eexists.
    + now eexists.
Qed.

Lemma list_sort_total (l : list A) :
  Forall (fun y => key y <> None) l -> exists s, list_sort key l = Ok s.
Proof.
  intros Hl. induction Hl as [|x l Hx Hl IH]; simpl.
  - now eexists.
  - destruct IH as [s Hs]. rewrite Hs. simpl.
    apply insert_sorted_total; [assumption|].
    eapply Permutation_Forall; [|exact Hl]. now apply list_sort_perm.
Qed.




(** Sorting a sorted list leaves it as it is. *)
Lemma list_sort_fixed (l : list A) :
  non_decreasing key l -> list_sort key l = Ok l.
Proof.
  unfold non_decreasing. induction 1 as [|x l Hs IH Hx]; simpl.
  - reflexivity.
  - rewrite IH. simpl. destruct l as [|y l]; [reflexivity|]. simpl.
    inversion Hx as [|? ? (kx & ky & Hkx & Hky & Hle) _]; subst.
    rewrite Hkx, Hky. simpl. unfold str_le in Hle. now rewrite Hle.
Qed.

Lemma last_item_in (l : list A) (z : A) : last_item l = Ok z -> In z l.
Proof.
  induction l as [|x [|y l] IH]; simpl; intros H; try discriminate.
  - injection H as <-. now left.
  - right. now apply IH.
Qed.

Lemma last_item_total (l : list A) : l <> [] -> exists z, last_item l = Ok z.
Proof.
  induction l as [|x [|y l] IH]; intros H; [congruence| |].
  - now exists x.
  - destruct IH as [z Hz]; [discriminate|]. now exists z.
Qed.

(** The last element of a sorted list is not before any element. *)
Lemma last_item_greatest (l : list A) (z : A) :
  non_decreasing key l -> last_item l = Ok z ->
  forall x, In x l -> x = z \/ key_le key x z.
Proof.
  unfold non_decreasing. induction 1 as [|x l Hs IH Hx]; intros Hz y Hy.
  - inversion Hy.
  - destruct l as [|x' l].
    + simpl in Hz. injection Hz as <-. destruct Hy as [<-|[]]. now left.
    + change (last_item (x :: x' :: l)) with (last_item (x' :: l)) in Hz.
      destruct Hy as [<-|Hy]; [|now apply IH].
      right. rewrite Forall_forall in Hx. apply Hx.
      now apply last_item_in.
Qed.
End ListSortFacts.

(** ** The fetch cursor *)

Lemma start_date_key_val (x : activity) (m : string) :
  start_date_key x = Some m -> m <> "" -> get (f_start_date x) = Some m.
Proof.
  unfold start_date_key. destruct (f_start_date x); simpl; congruence.
Qed.

(** C1, as stated, fails: on a cache holding the New York and the London
    run the cursor is not the [start_date_local] of the record that is last
    by [start_date_local] (the London run, 10:00 local); it is the
    [start_date] of the New York run. *)
Lemma C1_cursor_not_start_date_local :
  latest_start_date [new_york_run; london_run]
    = Ok ([london_run; new_york_run], Some "2025-01-05T12:00:00Z")
  /\ non_decreasing start_date_local_key [new_york_run; london_run]
  /\ get (f_start_date_local london_run) = Some "2025-01-05T10:00:00Z"
  /\ Some "2025-01-05T12:00:00Z" <> get (f_start_date_local london_run).
Proof.
  split; [reflexivity|]. split; [|split; [reflexivity|discriminate]].
  repeat constructor.
  exists "2025-01-05T07:00:00Z", "2025-01-05T10:00:00Z". now repeat split.
Qed.

(** C1, amended: the cursor of an empty cache is [None]; on a cache whose
    [start_date] values are strings, the cursor is the greatest
    [start_date] of the cache (when it is not empty), whatever the order of
    the cache on disk, and the cache is sorted by [start_date] on the way. *)
Theorem C1_cursor_is_greatest_start_date :
  latest_start_date [] = Ok ([], None) /\
  forall (cached : list activity) (m : string),
    (exists x, In x cached /\ f_start_date x = Val m) ->
    m <> "" ->
    (forall x, In x cached ->
               exists s, start_date_key x = Some s /\ str_le s m) ->
    exists sorted,
      latest_start_date cached = Ok (sorted, Some m)
      /\ Permutation cached sorted
      /\ non_decreasing start_date_key sorted.
Proof.
  split; [reflexivity|]. intros cached m (x & Hx & Hm) Hne Hall.
  destruct (list_sort_total start_date_key cached) as [sorted Hs].
  { apply Forall_forall. intros y Hy. destruct (Hall y Hy) as (s & -> & _).
    discriminate. }
  pose proof (list_sort_perm _ _ _ Hs) as Hp.
  pose proof (list_sort_sorted _ _ _ Hs) as Hsorted.
  destruct (last_item_total sorted) as [z Hz].
  { intros ->. apply Permutation_sym, Permutation_nil in Hp. now subst. }
  assert (Hzin : In z cached).
  { eapply Permutation_in; [apply Permutation_sym; exact Hp|].
    now apply last_item_in. }
  destruct (Hall z Hzin) as (s & Hks & Hsm).
  assert (Hxk : start_date_key x = Some m)
    by (unfold start_date_key; now rewrite Hm).
  assert (s = m) as ->.
  { apply str_le_antisym; [assumption|].
    destruct (last_item_greatest start_date_key sorted z Hsorted Hz x)
      as [->|(a & b & Ha & Hb & Hab)].
    - eapply Permutation_in; eassumption.
    - rewrite Hxk in Hks. injection Hks as <-. apply str_le_refl.
    - congruence. }
  exists sorted. repeat split; try assumption.
  unfold latest_start_date. destruct cached as [|c cached]; [inversion Hx|].
  rewrite Hs. simpl. rewrite Hz. simpl.
  now rewrite (start_date_key_val z m Hks Hne).
Qed.

Lemma C1_cursor_is_greatest_start_date_witness :
  exists sorted,
    latest_start_date [new_york_run; london_run]
      = Ok (sorted, Some "2025-01-05T12:00:00Z")
    /\ Permutation [new_york_run; london_run] sorted
    /\ non_decreasing start_date_key sorted.
Proof.
  apply (proj2 C1_cursor_is_greatest_start_date).
  - exists new_york_run. split; [now left|reflexivity].
  - discriminate.
  - intros x [<-|[<-|[]]].
    + exists "2025-01-05T12:00:00Z". split; reflexivity.
    + exists "2025-01-05T10:00:00Z". split; reflexivity.
Defined.

(** ** The persisted order *)

Lemma save_activities_ok (activities : list activity) (w w' : world) :
  save_activities activities w = (w', Ok tt) ->
  exists sorted,
    list_sort start_date_key activities = Ok sorted
    /\ activities_file w' = Stored sorted
    /\ token_file w' = token_file w.
Proof.
  unfold save_activities, mbind, lift.
  destruct (list_sort start_date_key activities) as [sorted|e]; [|discriminate].
  simpl. intros H. injection H as <-. now exists sorted.
Qed.

(** C2, as stated, fails: what [save_activities] stores for the two runs
    is not in [start_date_local] order. *)
Lemma C2_stored_order_not_start_date_local :
  exists w',
    save_activities [new_york_run; london_run] first_sync = (w', Ok tt)
    /\ activities_file w' = Stored [london_run; new_york_run]
    /\ ~ non_decreasing start_date_local_key [london_run; new_york_run].
Proof.
  eexists. split; [reflexivity|]. split; [reflexivity|].
  intros H. inversion H as [|? ? _ Hhd]; subst.
  inversion Hhd as [|? ? (a & b & Ha & Hb & Hle) _]; subst.
  injection Ha as <-. injection Hb as <-. discriminate Hle.
Qed.

(** C2, amended: every cache [save_activities] stores is a permutation of
    the list it was given, non-decreasing by [start_date] (a missing
    [start_date] counting as the empty string), and it stores one whenever
    every [start_date] is a string or missing. *)
Theorem C2_stored_order_is_start_date :
  forall (activities : list activity) (w : world),
    (Forall (fun x => start_date_key x <> None) activities ->
     exists w', save_activities activities w = (w', Ok tt))
    /\ (forall w',
          save_activities activities w = (w', Ok tt) ->
          exists stored,
            activities_file w' = Stored stored
            /\ Permutation activities stored
            /\ non_decreasing start_date_key stored).
Proof.
  intros activities w. split.
  - intros Hall. destruct (list_sort_total _ _ Hall) as [s Hs].
    unfold save_activities, mbind, lift. rewrite Hs. simpl. now eexists.
  - intros w' H. apply save_activities_ok in H.
    destruct H as (sorted & Hs & Hf & _). exists sorted.
    split; [assumption|]. split.
    + now apply list_sort_perm in Hs.
    + now apply list_sort_sorted in Hs.
Qed.

Lemma C2_stored_order_is_start_date_witness :
  exists w' stored,
    save_activities [new_york_run; london_run] first_sync = (w', Ok tt)
    /\ activities_file w' = Stored stored
    /\ Permutation [new_york_run; london_run] stored
    /\ non_decreasing start_date_key stored.
Proof.
  destruct (C2_stored_order_is_start_date [new_york_run; london_run] first_sync)
    as [Htotal Hsorted].
  destruct Htotal as [w' Hw'].
  { repeat constructor; discriminate. }
  destruct (Hsorted w' Hw') as (stored & H1 & H2 & H3).
  exists w', stored. repeat split; assumption.
Defined.

(** ** The dictionary keyed by id *)

Lemma key_eqb_eq (a b : option Z) : key_eqb a b = true <-> a = b.
Proof.
  destruct a as [x|], b as [y|]; simpl; split; try congruence.
  - intros H. apply Z.eqb_eq in H. now subst.
  - intros H. injection H as ->. apply Z.eqb_refl.
Qed.

Lemma key_eqb_refl (a : option Z) : key_eqb a a = true.
Proof. now apply key_eqb_eq. Qed.

Lemma key_eqb_neq (a b : option Z) : key_eqb a b = false <-> a <> b.
Proof.
  rewrite <- key_eqb_eq. destruct (key_eqb a b); split; congruence.
Qed.

Lemma getitem_id (a : activity) (k : option Z) :
  getitem "id" (f_id a) = Ok k <-> has_id a /\ id_key a = k.
Proof.
  unfold has_id, id_key. destruct (f_id a); simpl; split;
    try discriminate; try (intros [H _]; congruence);
    try (intros H; injection H as <-; split; [discriminate|reflexivity]);
    intros [_ <-]; reflexivity.
Qed.

Lemma dict_get_none (k : option Z) (d : py_dict) :
  ~ In k (map fst d) -> dict_get k d = None.
Proof.
  induction d as [|[k' v] d IH]; simpl; intros H; [reflexivity|].
  destruct (key_eqb k' k) eqn:E.
  - apply key_eqb_eq in E. tauto.
  - apply IH. tauto.
Qed.

Lemma dict_get_in (k : option Z) (v : activity) (d : py_dict) :
  dict_get k d = Some v -> In (k, v) d.
Proof.
  induction d as [|[k' v'] d IH]; simpl; [discriminate|].
  destruct (key_eqb k' k) eqn:E.
  - apply key_eqb_eq in E. intros H. injection H as ->. subst. now left.
  - intros H. right. now apply IH.
Qed.

Lemma in_dict_get (k : option Z) (v : activity) (d : py_dict) :
  NoDup (map fst d) -> In (k, v) d -> dict_get k d = Some v.
Proof.
  induction d as [|[k' v'] d IH]; simpl; intros Hnd Hin; [tauto|].
  inversion Hnd as [|? ? Hk' Hnd']; subst.
  destruct Hin as [Heq|Hin].
  - injection Heq as -> ->. now rewrite key_eqb_refl.
  - destruct (key_eqb k' k) eqn:E; [|now apply IH].
    apply key_eqb_eq in E. subst. exfalso. apply Hk'.
    now apply (in_map fst) in Hin.
Qed.

Lemma dict_get_set_same (k : option Z) (v : activity) (d : py_dict) :
  dict_get k (dict_set k v d) = Some v.
Proof.
  induction d as [|[k' v'] d IH]; simpl.
  - now rewrite key_eqb_refl.
  - destruct (key_eqb k' k) eqn:E; simpl; rewrite E; [reflexivity|assumption].
Qed.

Lemma dict_get_set_other (k k' : option Z) (v : activity) (d : py_dict) :
  k <> k' -> dict_get k' (dict_set k v d) = dict_get k' d.
Proof.
  intros Hne. induction d as [|[k0 v0] d IH]; simpl.
  - apply key_eqb_neq in Hne. now rewrite Hne.
  - destruct (key_eqb k0 k) eqn:E; simpl.
    + apply key_eqb_eq in E. subst. apply key_eqb_neq in Hne. now rewrite Hne.
    + now rewrite IH.
Qed.

Lemma dict_set_keys_in (k : option Z) (v : activity) (d : py_dict) :
  In k (map fst d) -> map fst (dict_set k v d) = map fst d.
Proof.
  induction d as [|[k' v'] d IH]; simpl; intros Hin; [tauto|].
  destruct (key_eqb k' k) eqn:E; simpl; [reflexivity|].
  f_equal. apply IH. destruct Hin as [->|Hin]; [|assumption].
  now rewrite key_eqb_refl in E.
Qed.

Lemma dict_set_fresh (k : option Z) (v : activity) (d : py_dict) :
  ~ In k (map fst d) -> dict_set k v d = (d ++ [(k, v)])%list.
Proof.
  induction d as [|[k' v'] d IH]; simpl; intros Hin; [reflexivity|].
  destruct (key_eqb k' k) eqn:E.
  - apply key_eqb_eq in E. tauto.
  - f_equal. apply IH. tauto.
Qed.

Lemma dict_set_keys (k : option Z) (v : activity) (d : py_dict) (k' : option Z) :
  In k' (map fst (dict_set k v d)) <-> In k' (map fst d) \/ k' = k.
Proof.
  induction d as [|[k0 v0] d IH]; simpl.
  - intuition congruence.
  - destruct (key_eqb k0 k) eqn:E; simpl.
    + apply key_eqb_eq in E. subst. intuition congruence.
    + rewrite IH. tauto.
Qed.

Lemma dict_set_nodup (k : option Z) (v : activity) (d : py_dict) :
  NoDup (map fst d) -> NoDup (map fst (dict_set k v d)).
Proof.
  induction d as [|[k0 v0] d IH]; simpl; intros Hnd.
  - repeat constructor. tauto.
  - inversion Hnd as [|? ? Hk0 Hnd']; subst.
    destruct (key_eqb k0 k) eqn:E; simpl.
    + now constructor.
    + constructor; [|now apply IH]. rewrite dict_set_keys.
      apply key_eqb_neq in E. intuition congruence.
Qed.

(** Two dictionaries with the same keys in the same order and the same
    value under every key are the same dictionary. *)
Lemma dict_ext (d1 d2 : py_dict) :
  NoDup (map fst d1) -> map fst d1 = map fst d2 ->
  (forall k, dict_get k d1 = dict_get k d2) -> d1 = d2.
Proof.
  revert d2. induction d1 as [|[k1 v1] d1 IH]; intros [|[k2 v2] d2];
    simpl; intros Hnd Hk Hget; try discriminate; [reflexivity|].
  injection Hk as <- Hk. inversion Hnd as [|? ? Hk1 Hnd']; subst.
  pose proof (Hget k1) as H1. rewrite key_eqb_refl in H1. injection H1 as <-.
  f_equal. apply IH; try assumption. intros k.
  destruct (key_eqb k1 k) eqn:E.
  - apply key_eqb_eq in E. subst.
    rewrite !dict_get_none; [reflexivity| |assumption]. now rewrite <- Hk.
  - specialize (Hget k). now rewrite E in Hget.
Qed.

Lemma last_with_id_in (k : option Z) (l : list activity) (a : activity) :
  last_with_id k l = Some a -> In a l /\ id_key a = k.
Proof.
  induction l as [|x l IH]; simpl; [discriminate|].
  destruct (last_with_id k l) as [b|].
  - intros H. injection H as ->. destruct IH as [H1 H2]; [reflexivity|]. tauto.
  - destruct (key_eqb (id_key x) k) eqn:E; [|discriminate].
    apply key_eqb_eq in E. intros H. injection H as ->. tauto.
Qed.

Lemma last_with_id_none (k : option Z) (l : list activity) :
  last_with_id k l = None <-> ~ In k (map id_key l).
Proof.
  induction l as [|x l IH]; simpl; [tauto|].
  destruct (last_with_id k l) as [b|].
  - split; [discriminate|]. intros H. exfalso.
    assert (Hn : ~ In k (map id_key l)) by tauto.
    apply IH in Hn. discriminate.
  - destruct (key_eqb (id_key x) k) eqn:E.
    + apply key_eqb_eq in E. split; [discriminate|tauto].
    + apply key_eqb_neq in E. split; [|reflexivity]. intros _.
      assert (~ In k (map id_key l)) by now apply IH. tauto.
Qed.

Lemma dict_set_in (k : option Z) (a : activity) (d : py_dict)
    (k' : option Z) (v : activity) :
  In (k', v) (dict_set k a d) -> (k', v) = (k, a) \/ In (k', v) d.
Proof.
  induction d as [|[k0 v0] d IH]; simpl.
  - intros [H|[]]. now left.
  - destruct (key_eqb k0 k) eqn:E; simpl.
    + apply key_eqb_eq in E. subst. intros [H|H]; [now left|tauto].
    + intros [H|H]; [tauto|]. apply IH in H. tauto.
Qed.

Lemma dict_set_ok (a : activity) (d : py_dict) :
  has_id a -> dict_ok d -> dict_ok (dict_set (id_key a) a d).
Proof.
  intros Ha [Hnd Hent]. split; [now apply dict_set_nodup|].
  intros k v Hin. apply dict_set_in in Hin. destruct Hin as [Heq|Hin].
  - injection Heq as -> ->. now split.
  - now apply Hent.
Qed.

Lemma dict_ok_ids (d : py_dict) :
  dict_ok d -> map id_key (dict_values d) = map fst d.
Proof.
  intros [_ Hent]. unfold dict_values. induction d as [|[k v] d IH]; simpl.
  - reflexivity.
  - f_equal.
    + apply (Hent k v). now left.
    + apply IH. intros k' v' Hin. apply Hent. now right.
Qed.

Lemma activity_map_spec (l : list activity) :
  forall d d', activity_map d l = Ok d' ->
    Forall has_id l
    /\ (dict_ok d -> dict_ok d')
    /\ (forall k, dict_get k d' = match last_with_id k l with
                                   | Some a => Some a
                                   | None => dict_get k d
                                   end)
    /\ (forall k, In k (map fst d') <-> In k (map fst d) \/ In k (map id_key l)).
Proof.
  induction l as [|a l IH]; simpl; intros d d' H.
  - injection H as <-. split; [constructor|]. split; [auto|].
    split; [reflexivity|]. intros k. tauto.
  - destruct (getitem "id" (f_id a)) as [k|e] eqn:Hk; simpl in H;
      [|discriminate].
    apply getitem_id in Hk. destruct Hk as [Ha <-].
    destruct (IH _ _ H) as (Hl & Hok & Hget & Hkeys).
    split; [now constructor|]. split; [|split].
    + intros Hd. apply Hok. now apply dict_set_ok.
    + intros k. rewrite Hget. destruct (last_with_id k l); [reflexivity|].
      destruct (key_eqb (id_key a) k) eqn:E.
      * apply key_eqb_eq in E. subst. apply dict_get_set_same.
      * apply key_eqb_neq in E. now apply dict_get_set_other.
    + intros k. rewrite Hkeys, dict_set_keys. intuition congruence.
Qed.

Lemma activity_map_total (l : list activity) :
  Forall has_id l -> forall d, exists d', activity_map d l = Ok d'.
Proof.
  induction 1 as [|a l Ha _ IH]; simpl; intros d.
  - now eexists.
  - assert (Hk : getitem "id" (f_id a) = Ok (id_key a))
      by now apply getitem_id.
    rewrite Hk. simpl. apply IH.
Qed.

Lemma activity_map_same_keys (l : list activity) :
  forall d d',
    (forall b, In b l -> In (id_key b) (map fst d)) ->
    activity_map d l = Ok d' -> map fst d' = map fst d.
Proof.
  induction l as [|a l IH]; simpl; intros d d' Hin H.
  - now injection H as <-.
  - destruct (getitem "id" (f_id a)) as [k|e] eqn:Hk; simpl in H;
      [|discriminate].
    apply getitem_id in Hk. destruct Hk as [Ha <-].
    assert (Hset : map fst (dict_set (id_key a) a d) = map fst d)
      by (apply dict_set_keys_in, Hin; now left).
    rewrite <- Hset. apply IH; [|assumption].
    intros b Hb. rewrite Hset. apply Hin. now right.
Qed.

Lemma activity_map_fresh (l : list activity) :
  Forall has_id l -> NoDup (map id_key l) ->
  forall acc,
    (forall k, In k (map fst acc) -> ~ In k (map id_key l)) ->
    activity_map acc l = Ok (acc ++ map entry l)%list.
Proof.
  induction 1 as [|a l Ha _ IH]; simpl; intros Hnd acc Hdis.
  - now rewrite app_nil_r.
  - inversion Hnd as [|? ? Hal Hnd']; subst.
    assert (Hk : getitem "id" (f_id a) = Ok (id_key a))
      by now apply getitem_id.
    rewrite Hk. simpl. rewrite dict_set_fresh.
    + rewrite IH; [now rewrite <- app_assoc|assumption|].
      intros k Hin. rewrite map_app in Hin. apply in_app_or in Hin.
      destruct Hin as [Hin|[<-|[]]]; [|assumption].
      intros Hl. apply (Hdis k Hin). now right.
    + intros Hin. apply (Hdis _ Hin). now left.
Qed.

(** What the merge returns, whenever it returns. *)
Lemma all_activities_spec (cached new merged : list activity) :
  all_activities cached new = Ok merged ->
  Forall has_id cached /\ Forall has_id new /\ Forall has_id merged
  /\ NoDup (map id_key merged)
  /\ (forall k, In k (map id_key merged)
                <-> In k (map id_key cached) \/ In k (map id_key new))
  /\ (forall a, In a merged ->
        match last_with_id (id_key a) new with
        | Some b => a = b
        | None => last_with_id (id_key a) cached = Some a
        end).
Proof.
  unfold all_activities. intros H.
  destruct (activity_map [] cached) as [d1|e] eqn:H1; simpl in H;
    [|discriminate].
  destruct (activity_map d1 new) as [d2|e] eqn:H2; simpl in H; [|discriminate].
  injection H as <-.
  destruct (activity_map_spec _ _ _ H1) as (Hc & Hok1 & Hget1 & Hkeys1).
  destruct (activity_map_spec _ _ _ H2) as (Hn & Hok2 & Hget2 & Hkeys2).
  assert (Hd2 : dict_ok d2).
  { apply Hok2, Hok1. split; [constructor|]. intros k v []. }
  split; [assumption|]. split; [assumption|]. split; [|split; [|split]].
  - apply Forall_forall. intros a Ha. unfold dict_values in Ha.
    apply in_map_iff in Ha. destruct Ha as ([k v] & <- & Hin).
    now apply (proj2 Hd2 k v).
  - rewrite dict_ok_ids by assumption. apply Hd2.
  - intros k. rewrite dict_ok_ids by assumption.
    rewrite Hkeys2, Hkeys1. simpl. tauto.
  - intros a Ha. unfold dict_values in Ha. apply in_map_iff in Ha.
    destruct Ha as ([k v] & <- & Hin). simpl.
    destruct (proj2 Hd2 k v Hin) as [_ ->].
    apply in_dict_get in Hin; [|apply Hd2].
    rewrite Hget2 in Hin. destruct (last_with_id k new) as [b|].
    + now injection Hin as ->.
    + rewrite Hget1 in Hin. destruct (last_with_id k cached); [assumption|].
      discriminate.
Qed.

Lemma all_activities_total (cached new : list activity) :
  Forall has_id cached -> Forall has_id new ->
  exists merged, all_activities cached new = Ok merged.
Proof.
  intros Hc Hn. unfold all_activities.
  destruct (activity_map_total _ Hc []) as [d1 ->]. simpl.
  destruct (activity_map_total _ Hn d1) as [d2 ->]. simpl. now eexists.
Qed.

(** A list with one record per id that already holds the last fetched
    record of every fetched id is left as it is by the merge. *)
Lemma all_activities_fixed (l new : list activity) :
  Forall has_id l -> NoDup (map id_key l) -> Forall has_id new ->
  (forall k a, last_with_id k new = Some a -> In a l) ->
  all_activities l new = Ok l.
Proof.
  intros Hl Hnd Hn Hlast. unfold all_activities.
  rewrite (activity_map_fresh l Hl Hnd []) by (intros k []). simpl.
  destruct (activity_map_total _ Hn (map entry l)) as [d' Hd']. rewrite Hd'.
  simpl. f_equal.
  assert (Hfst : map fst (map entry l) = map id_key l)
    by (rewrite map_map; reflexivity).
  assert (Hd : d' = map entry l).
  { destruct (activity_map_spec _ _ _ Hd') as (_ & _ & Hget & _).
    assert (Hkeys : map fst d' = map fst (map entry l)).
    { apply (activity_map_same_keys new); [|assumption].
      intros b Hb. rewrite Hfst.
      destruct (last_with_id (id_key b) new) as [a|] eqn:E.
      - pose proof (Hlast _ _ E) as Ha. apply last_with_id_in in E.
        destruct E as [_ <-]. now apply in_map.
      - apply last_with_id_none in E. exfalso. apply E. now apply in_map. }
    apply dict_ext; [rewrite Hkeys, Hfst; assumption|assumption|].
    intros k. rewrite Hget. destruct (last_with_id k new) as [a|] eqn:E;
      [|reflexivity].
    symmetry. apply in_dict_get; [now rewrite Hfst|].
    pose proof (Hlast _ _ E) as Ha. apply last_with_id_in in E.
    destruct E as [_ <-]. now apply (in_map entry) in Ha. }
  rewrite Hd. unfold dict_values. rewrite map_map. simpl. apply map_id.
Qed.

(** ** Merge by identifier *)

Example all_activities_sample :
  all_activities [london_run; new_york_run] [london_run_renamed; cardiff_run]
  = Ok [london_run_renamed; new_york_run; cardiff_run].
Proof. reflexivity. Qed.

(** C3: when every record carries an [id], the merge returns the union of
    the cache and the fetched records keyed by id: no id twice, the ids of
    both inputs and no other, under an id that was fetched the (last)
    fetched record, and under any other id the cached record. *)
Theorem C3_merge_is_union_by_id :
  forall cached new : list activity,
    Forall has_id cached -> Forall has_id new ->
    exists merged,
      all_activities cached new = Ok merged
      /\ NoDup (map id_key merged)
      /\ (forall k, In k (map id_key merged)
                    <-> In k (map id_key cached) \/ In k (map id_key new))
      /\ (forall a, In a merged -> In (id_key a) (map id_key new) ->
                    In a new /\ last_with_id (id_key a) new = Some a)
      /\ (forall a, In a merged -> ~ In (id_key a) (map id_key new) ->
                    In a cached /\ last_with_id (id_key a) cached = Some a).
Proof.
  intros cached new Hc Hn.
  destruct (all_activities_total cached new Hc Hn) as [merged Hm].
  exists merged. split; [assumption|].
  destruct (all_activities_spec _ _ _ Hm) as (_ & _ & _ & Hnd & Hids & Hwin).
  split; [assumption|]. split; [assumption|]. split.
  - intros a Ha Hin. specialize (Hwin a Ha).
    destruct (last_with_id (id_key a) new) as [b|] eqn:E.
    + subst b. split; [|reflexivity]. now apply last_with_id_in in E.
    + apply last_with_id_none in E. contradiction.
  - intros a Ha Hnin. specialize (Hwin a Ha).
    apply last_with_id_none in Hnin. rewrite Hnin in Hwin.
    split; [|assumption]. now apply last_with_id_in in Hwin.
Qed.

Lemma C3_merge_is_union_by_id_witness :
  exists merged,
    all_activities [london_run; new_york_run] [london_run_renamed; cardiff_run]
      = Ok merged
    /\ NoDup (map id_key merged)
    /\ (forall k, In k (map id_key merged)
                  <-> In k (map id_key [london_run; new_york_run])
                      \/ In k (map id_key [london_run_renamed; cardiff_run]))
    /\ (forall a, In a merged ->
                  In (id_key a) (map id_key [london_run_renamed; cardiff_run]) ->
                  In a [london_run_renamed; cardiff_run]
                  /\ last_with_id (id_key a) [london_run_renamed; cardiff_run]
                     = Some a)
    /\ (forall a, In a merged ->
                  ~ In (id_key a) (map id_key [london_run_renamed; cardiff_run]) ->
                  In a [london_run; new_york_run]
                  /\ last_with_id (id_key a) [london_run; new_york_run] = Some a).
Proof.
  apply C3_merge_is_union_by_id; repeat constructor; discriminate.
Defined.

(** C4: merging the same fetched records a second time changes nothing:
    neither into the list the merge returned, nor into the sorted list that
    [save_activities] stored, which also sorts to itself. *)
Theorem C4_merge_idempotent :
  forall cached new merged : list activity,
    all_activities cached new = Ok merged ->
    all_activities merged new = Ok merged
    /\ forall stored,
         list_sort start_date_key merged = Ok stored ->
         all_activities stored new = Ok stored
         /\ list_sort start_date_key stored = Ok stored.
Proof.
  intros cached new merged Hm.
  destruct (all_activities_spec _ _ _ Hm)
    as (_ & Hn & Hmid & Hnd & Hids & Hwin).
  assert (Hlast : forall k a, last_with_id k new = Some a -> In a merged).
  { intros k a E. pose proof (last_with_id_in _ _ _ E) as [Ha Hk].
    assert (Hin : In k (map id_key merged)).
    { apply Hids. right. rewrite <- Hk. now apply in_map. }
    apply in_map_iff in Hin. destruct Hin as (a' & Hk' & Ha').
    specialize (Hwin a' Ha'). rewrite Hk', E in Hwin. now subst. }
  split; [now apply all_activities_fixed|].
  intros stored Hs. pose proof (list_sort_perm _ _ _ Hs) as Hp. split.
  - apply all_activities_fixed; try assumption.
    + eapply Permutation_Forall; eassumption.
    + eapply Permutation_NoDup; [apply Permutation_map; exact Hp|assumption].
    + intros k a E. eapply Permutation_in; [exact Hp|]. eapply Hlast, E.
  - apply list_sort_fixed. eapply list_sort_sorted, Hs.
Qed.

Lemma C4_merge_idempotent_witness :
  all_activities [london_run_renamed; new_york_run; cardiff_run]
    [london_run_renamed; cardiff_run]
  = Ok [london_run_renamed; new_york_run; cardiff_run].
Proof.
  exact (proj1 (C4_merge_idempotent
                  [london_run; new_york_run] [london_run_renamed; cardiff_run]
                  [london_run_renamed; new_york_run; cardiff_run]
                  eq_refl)).
Defined.

(** ** Statements that leave the activity cache file alone *)

Lemma keeps_ret {A : Type} (a : A) : keeps_cache (ret a).
Proof. now intros w. Qed.

Lemma keeps_raise {A : Type} (e : exn) : keeps_cache (@raise world A e).
Proof. now intros w. Qed.

Lemma keeps_lift {A : Type} (r : result A) : keeps_cache (lift r).
Proof. now intros w. Qed.

Lemma keeps_logging (lv : level) (msg : string) : keeps_cache (logging lv msg).
Proof. now intros w. Qed.

Lemma keeps_write_tokens (t : tokens) : keeps_cache (write_tokens t).
Proof. now intros w. Qed.

Lemma keeps_mbind {A B : Type} (m : M world A) (k : A -> M world B) :
  keeps_cache m -> (forall a, keeps_cache (k a)) -> keeps_cache (mbind m k).
Proof.
  intros Hm Hk w. unfold mbind. specialize (Hm w).
  destruct (m w) as [w' [a|e]]; simpl in *; [|assumption].
  now rewrite Hk.
Qed.

Lemma keeps_when (c : bool) (m : M world unit) :
  keeps_cache m -> keeps_cache (when c m).
Proof. intros Hm. destruct c; [assumption|apply keeps_ret]. Qed.

Lemma keeps_try_except (m : M world unit) (handler : exn -> M world unit) :
  keeps_cache m -> (forall e, keeps_cache (handler e)) ->
  keeps_cache (try_except m handler).
Proof.
  intros Hm Hh w. unfold try_except. specialize (Hm w).
  destruct (m w) as [w' [[]|e]]; simpl in *; [assumption|].
  destruct e; try (now rewrite Hh); assumption.
Qed.

Create HintDb keeps.
#[local] Hint Resolve keeps_ret keeps_raise keeps_lift keeps_logging
  keeps_write_tokens keeps_mbind keeps_when keeps_try_except : keeps.

Lemma keeps_load_tokens : keeps_cache load_tokens.
Proof.
  intros w. unfold load_tokens. destruct (token_file w); reflexivity.
Qed.

Lemma keeps_get_client (r : remote) : keeps_cache (get_client r).
Proof.
  unfold get_client, save_tokens. apply keeps_mbind; [apply keeps_load_tokens|].
  intros [tk|]; [|auto with keeps].
  destruct (num_gt _ _); [|auto with keeps].
  apply keeps_mbind; [auto with keeps|]. intros _.
  destruct (refresh_access_token r (refresh_token tk)); auto 6 with keeps.
Qed.

Lemma keeps_load_cached_activities : keeps_cache load_cached_activities.
Proof.
  intros w. unfold load_cached_activities.
  destruct (activities_file w) eqn:E; simpl; assumption.
Qed.

Lemma keeps_fetch_loop (items : list strava_model) (failure : option exn) :
  forall new_activities, keeps_cache (fetch_loop items failure new_activities).
Proof.
  induction items as [|a items IH]; simpl; intros acc.
  - destruct failure; auto with keeps.
  - apply keeps_mbind; [auto with keeps|]. intros activity_data.
    apply keeps_mbind; [auto with keeps|]. intros _. apply IH.
Qed.

(** A generator that ends with an exception makes the loop raise, whatever
    it yielded before. *)
Lemma fetch_loop_failure (items : list strava_model) (e : exn) :
  forall new_activities w,
    exists e', snd (fetch_loop items (Some e) new_activities w) = Raise e'.
Proof.
  induction items as [|a items IH]; simpl; intros acc w.
  - now exists e.
  - unfold mbind, lift. destruct (serialize a) as [activity_data|e'].
    + simpl. apply IH.
    + now exists e'.
Qed.

(** Everything before the [try] leaves the cache file alone, and so does
    the handler: only the body of the [try] can write it. *)
Lemma keeps_download_activities (r : remote) (limit : option Z) :
  (forall client cached after,
      keeps_cache (fetch_and_save r client cached after limit)) ->
  keeps_cache (download_activities r limit).
Proof.
  intros Hbody. unfold download_activities.
  apply keeps_mbind; [apply keeps_get_client|]. intros [client|];
    [|auto with keeps].
  apply keeps_mbind; [apply keeps_load_cached_activities|]. intros cached.
  apply keeps_mbind; [auto with keeps|]. intros [cached_activities after].
  auto 8 with keeps.
Qed.

Lemma fetch_and_save_failure (r : remote) (client : tokens)
    (cached : list activity) (after : option string) (limit : option Z)
    (w : world) (e : exn) :
  failure (get_activities r client after limit) = Some e ->
  exists w' e',
    fetch_and_save r client cached after limit w = (w', Raise e')
    /\ activities_file w' = activities_file w.
Proof.
  intros Hf. unfold fetch_and_save, mbind at 1. rewrite Hf.
  pose proof (keeps_fetch_loop
                (yielded (get_activities r client after limit)) (Some e) [] w)
    as Hk.
  destruct (fetch_loop_failure
              (yielded (get_activities r client after limit)) e [] w)
    as [e' He'].
  destruct (fetch_loop _ _ _ w) as [w' res]. simpl in *. subst res.
  now exists w', e'.
Qed.

Lemma fetch_and_save_nothing (r : remote) (client : tokens)
    (cached : list activity) (after : option string) (limit : option Z)
    (w : world) :
  yielded (get_activities r client after limit) = [] ->
  failure (get_activities r client after limit) = None ->
  exists w',
    fetch_and_save r client cached after limit w = (w', Ok tt)
    /\ activities_file w' = activities_file w
    /\ token_file w' = token_file w.
Proof.
  intros Hy Hf. unfold fetch_and_save. rewrite Hy, Hf. simpl.
  eexists. split; [reflexivity|]. now split.
Qed.

(** The loop returns a list only when the generator was exhausted without
    an exception, and then the list holds every record it yielded. *)
Lemma fetch_loop_ok (items : list strava_model) (failure : option exn) :
  forall acc w w' new,
    fetch_loop items failure acc w = (w', Ok new) ->
    failure = None
    /\ exists fetched,
         map serialize items = map Ok fetched /\ new = (acc ++ fetched)%list.
Proof.
  induction items as [|a items IH]; simpl; intros acc w w' new H.
  - destruct failure; [discriminate|]. injection H as _ <-.
    split; [reflexivity|]. exists []. now rewrite app_nil_r.
  - unfold mbind at 1, lift in H.
    destruct (serialize a) as [activity_data|e]; [|discriminate].
    unfold mbind at 1 in H. simpl in H.
    apply IH in H. destruct H as (Hf & fetched & Hs & ->).
    split; [assumption|]. exists (activity_data :: fetched). simpl.
    rewrite Hs. now rewrite <- app_assoc.
Qed.

(** What the body of the [try] can leave in the cache file: what was there,
    or the sorted merge of the cache with a fetch that ran to its end. *)
Lemma fetch_and_save_outcome (r : remote) (client : tokens)
    (cached : list activity) (after : option string) (limit : option Z)
    (w w' : world) (res : result unit) :
  fetch_and_save r client cached after limit w = (w', res) ->
  activities_file w' = activities_file w
  \/ (failure (get_activities r client after limit) = None
      /\ exists new merged stored,
           map serialize (yielded (get_activities r client after limit))
           = map Ok new
           /\ new <> []
           /\ all_activities cached new = Ok merged
           /\ list_sort start_date_key merged = Ok stored
           /\ activities_file w' = Stored stored).
Proof.
  unfold fetch_and_save. set (g := get_activities r client after limit).
  unfold mbind at 1.
  pose proof (keeps_fetch_loop (yielded g) (failure g) [] w) as Hk.
  destruct (fetch_loop (yielded g) (failure g) [] w) as [w1 [new|e]] eqn:Hl;
    simpl in Hk.
  - apply fetch_loop_ok in Hl. destruct Hl as (Hf & fetched & Hs & ->).
    simpl. unfold mbind at 1. simpl.
    destruct fetched as [|a fetched].
    + intros H. injection H as <- _. now left.
    + unfold mbind at 1, lift.
      destruct (all_activities cached (a :: fetched)) as [merged|e] eqn:Hm.
      * unfold save_activities, mbind, lift.
        destruct (list_sort start_date_key merged) as [stored|e] eqn:Hsort;
          simpl; intros H; injection H as <- _; [|now left].
        right. split; [assumption|]. exists (a :: fetched), merged, stored.
        repeat split; try assumption. discriminate.
      * intros H. injection H as <- _. now left.
  - intros H. injection H as <- _. now left.
Qed.

(** C5: when the generator ends with an exception, the body of the [try]
    raises and the cache file is as it was, whatever was fetched before;
    a run of the downloader against a service whose fetch fails leaves the
    cache file as it was; and whatever the service does, the body of the
    [try] leaves in the file either what was there or the sorted merge with
    a fetch that ran to its end. *)
Theorem C5_failed_fetch_keeps_cache :
  (forall r client cached after limit w e,
      failure (get_activities r client after limit) = Some e ->
      exists w' e',
        fetch_and_save r client cached after limit w = (w', Raise e')
        /\ activities_file w' = activities_file w)
  /\ (forall r limit w,
        (forall client after,
            failure (get_activities r client after limit) <> None) ->
        activities_file (fst (download_activities r limit w))
        = activities_file w)
  /\ (forall r client cached after limit w w' res,
        fetch_and_save r client cached after limit w = (w', res) ->
        activities_file w' <> activities_file w ->
        failure (get_activities r client after limit) = None).
Proof.
  split; [|split].
  - intros r client cached after limit w e. apply fetch_and_save_failure.
  - intros r limit w Hfail. apply keeps_download_activities.
    intros client cached after w1.
    destruct (failure (get_activities r client after limit)) as [e|] eqn:Hf.
    + destruct (fetch_and_save_failure r client cached after limit w1 e Hf)
        as (w' & e' & -> & Hw'). exact Hw'.
    + now apply Hfail in Hf.
  - intros r client cached after limit w w' res H Hch.
    apply fetch_and_save_outcome in H. destruct H as [H|[H _]];
      [contradiction|assumption].
Qed.

Lemma C5_failed_fetch_keeps_cache_witness :
  activities_file (fst (download_activities timing_out None synced))
  = Stored [new_york_run; london_run].
Proof.
  apply (proj1 (proj2 C5_failed_fetch_keeps_cache) timing_out None synced).
  intros client after. discriminate.
Defined.

(** C6: when the generator yields nothing and ends normally, the body of
    the [try] completes without writing the cache file or the token file,
    and a run of the downloader against a service with nothing new leaves
    the cache file as it was, in the order it had. *)
Theorem C6_empty_fetch_keeps_cache :
  (forall r client cached after limit w,
      yielded (get_activities r client after limit) = [] ->
      failure (get_activities r client after limit) = None ->
      exists w',
        fetch_and_save r client cached after limit w = (w', Ok tt)
        /\ activities_file w' = activities_file w
        /\ token_file w' = token_file w)
  /\ (forall r limit w,
        (forall client after,
            yielded (get_activities r client after limit) = []
            /\ failure (get_activities r client after limit) = None) ->
        activities_file (fst (download_activities r limit w))
        = activities_file w).
Proof.
  split.
  - intros r client cached after limit w. apply fetch_and_save_nothing.
  - intros r limit w Hnone. apply keeps_download_activities.
    intros client cached after w1. destruct (Hnone client after) as [Hy Hf].
    destruct (fetch_and_save_nothing r client cached after limit w1 Hy Hf)
      as (w' & -> & Hw' & _). exact Hw'.
Qed.

Lemma C6_empty_fetch_keeps_cache_witness :
  activities_file (fst (download_activities nothing_new None synced))
  = Stored [new_york_run; london_run].
Proof.
  apply (proj2 C6_empty_fetch_keeps_cache nothing_new None synced).
  intros client after. split; reflexivity.
Defined.

Example sync_sample :
  let fresh :=
    {| time := 1700000000;
       refresh_access_token := fun _ => Raise (CapabilityError "offline");
       get_activities := fun _ _ _ =>
         {| yielded := [yields london_run_renamed; yields cardiff_run];
            failure := None |} |} in
  activities_file (fst (download_activities fresh None synced))
  = Stored [london_run_renamed; new_york_run; cardiff_run].
Proof. reflexivity. Qed.

(** ** The average pace *)

(** C7, as stated, fails: 10000 m in 3030 s is shown as 5:02, not 5:03,
    whether the distance is a [float] or an [int]; the product of the
    doubles nearest to 0.303 and to 1000/60 is just below 5.05. *)
Lemma C7_pace_of_3030_seconds_is_not_5_03 :
  avg_pace_str (NInt 3030) (NFloat 10000) = Ok "5:02 /km"
  /\ avg_pace_str (NInt 3030) (NInt 10000) = Ok "5:02 /km"
  /\ pace_minutes_per_km (NInt 3030) (NFloat 10000)
     = Ok 0x1.4333333333333p+2%float
  /\ avg_pace_str (NInt 3030) (NFloat 10000) <> Ok "5:03 /km".
Proof.
  split; [reflexivity|]. split; [reflexivity|]. split; [reflexivity|].
  discriminate.
Qed.

(** C7, amended: the pace is "0:00 /km" when the total distance is zero;
    when it is positive the pace is (seconds / metres) x (1000 / 60) in
    binary64 arithmetic, shown as M:SS /km with the minutes truncated, the
    seconds the truncated remainder times sixty and padded with a zero;
    10000 m in 3000 s gives "5:00 /km" and 10000 m in 3030 s "5:02 /km". *)
Theorem C7_avg_pace_in_binary64 :
  (forall seconds meters,
      num_cmp meters (NInt 0) = Some Eq ->
      avg_pace_str seconds meters = Ok "0:00 /km")
  /\ (forall seconds meters,
        num_cmp meters (NInt 0) = Some Gt ->
        avg_pace_str seconds meters
        = (pace <- pace_minutes_per_km seconds meters ;; format_pace pace))
  /\ avg_pace_str (NInt 3000) (NFloat 10000) = Ok "5:00 /km"
  /\ avg_pace_str (NInt 3030) (NFloat 10000) = Ok "5:02 /km".
Proof.
  split; [|split; [|split; reflexivity]].
  - intros seconds meters H. unfold avg_pace_str, num_gt. now rewrite H.
  - intros seconds meters H.
    unfold avg_pace_str, num_gt, pace_minutes_per_km, format_pace.
    rewrite H. generalize (num_truediv (NInt 1000) (NInt 60)).
    intros [per_km|e];
      destruct (num_truediv seconds meters) as [ratio|e']; reflexivity.
Qed.

Lemma C7_avg_pace_in_binary64_witness :
  avg_pace_str (NInt 3000) (NFloat 0) = Ok "0:00 /km"
  /\ avg_pace_str (NInt 6600) (NFloat 22000)
     = (pace <- pace_minutes_per_km (NInt 6600) (NFloat 22000) ;;
        format_pace pace).
Proof.
  split.
  - apply (proj1 C7_avg_pace_in_binary64). reflexivity.
  - apply (proj1 (proj2 C7_avg_pace_in_binary64)). reflexivity.
Defined.

(** ** The selection of the year's runs *)

Lemma printed_nil (d : desk) : printed [] d = d.
Proof. destruct d. unfold printed. simpl. now rewrite app_nil_r. Qed.

Lemma printed_app (l1 l2 : list string) (d : desk) :
  printed l2 (printed l1 d) = printed (l1 ++ l2) d.
Proof. unfold printed. simpl. now rewrite app_assoc. Qed.

Lemma num_add_raises (a b : num) (e : exn) :
  num_add a b = Raise e -> e = OverflowError.
Proof.
  unfold num_add, to_float, float_of_int.
  destruct a as [x|f], b as [y|g]; simpl; try discriminate.
  - destruct (binary_normalize prec emax x 0 false); simpl;
      try discriminate; congruence.
  - destruct (binary_normalize prec emax y 0 false); simpl;
      try discriminate; congruence.
Qed.

Section SummaryFacts.
Variable strptime : string -> option datetime.

Lemma parse_truthy (v : option string) :
  truthy_str v = true ->
  (exists dt, parse strptime v = Ok dt) \/ parse strptime v = Raise ValueError.
Proof.
  destruct v as [s|]; simpl; [|discriminate]. intros _.
  destruct (strptime s) as [dt|]; [left; now exists dt|now right].
Qed.

(** The loop as a filter: the runs of the year in their order, and one
    warning for each run whose timestamp the parser rejects. *)
Lemma select_year_spec (year : Z) (activities : list activity) :
  forall year_activities d,
    select_year strptime year activities year_activities d
    = (printed (map warning (filter (warns strptime) activities)) d,
       Ok (year_activities ++ filter (selects strptime year) activities)%list).
Proof.
  induction activities as [|a l IH]; simpl; intros acc d.
  - unfold ret. now rewrite printed_nil, app_nil_r.
  - unfold selects, warns, dated_run.
    destruct (py_eq_str (get (f_type a)) "Run"); simpl; [|apply IH].
    destruct (truthy_str (get (f_start_date_local a))) eqn:Ht; simpl;
      [|apply IH].
    destruct (parse_truthy _ Ht) as [[dt Hp]|Hp]; rewrite Hp.
    + destruct (dt_year dt =? year); [|apply IH].
      rewrite IH. now rewrite <- app_assoc.
    + unfold mbind, print. simpl. rewrite IH. unfold printed. simpl.
      now rewrite <- app_assoc.
Qed.

Lemma selects_parse (year : Z) (a : activity) :
  selects strptime year a = true ->
  exists dt,
    parse strptime (get (f_start_date_local a)) = Ok dt /\ dt_year dt = year.
Proof.
  unfold selects. intros H. apply andb_prop in H. destruct H as [_ H].
  destruct (parse strptime (get (f_start_date_local a))) as [dt|e];
    [|discriminate].
  exists dt. split; [reflexivity|]. now apply Z.eqb_eq.
Qed.

Lemma warns_inv (a : activity) :
  warns strptime a = true <->
  get (f_type a) = Some "Run"
  /\ exists s, f_start_date_local a = Val s /\ s <> "" /\ strptime s = None.
Proof.
  unfold warns, dated_run, py_eq_str, truthy_str, parse.
  destruct (get (f_type a)) as [t|]; simpl;
    [|split; [discriminate|intros [H _]; discriminate]].
  destruct (String.eqb_spec t "Run") as [->|Ht]; simpl;
    [|split; [discriminate|intros [H _]; congruence]].
  destruct (f_start_date_local a) as [| |s]; simpl;
    try (split; [discriminate|intros (_ & s & H & _); discriminate]).
  destruct (String.eqb_spec s "") as [->|Hs]; simpl.
  - split; [discriminate|]. intros (_ & s & H & Hne & _).
    injection H as <-. congruence.
  - destruct (strptime s) eqn:E; simpl.
    + split; [discriminate|]. intros (_ & s' & H & _ & Hn).
      injection H as <-. congruence.
    + split; [|reflexivity]. intros _. split; [reflexivity|]. now exists s.
Qed.

Lemma stats_step_raises (t : totals) (act : activity) (e : exn) :
  (exists dt, parse strptime (get (f_start_date_local act)) = Ok dt) ->
  stats_step strptime t act = Raise e -> e = TypeError \/ e = OverflowError.
Proof.
  intros [dt Hdt]. unfold stats_step. rewrite Hdt.
  destruct (get_default (f_distance act) (NInt 0)) as [dist|]; simpl;
    [|intros H; left; congruence].
  destruct (num_add (total_dist_meters t) dist) as [td|e1] eqn:E1; simpl;
    [|intros H; right; apply num_add_raises in E1; congruence].
  destruct (get_default (f_moving_time act) (NInt 0)) as [mt|]; simpl;
    [|intros H; left; congruence].
  destruct (num_add (total_seconds t) mt) as [ts|e2] eqn:E2; simpl;
    [discriminate|intros H; right; apply num_add_raises in E2; congruence].
Qed.

Lemma stats_loop_raises (l : list activity) :
  Forall (fun act =>
            exists dt, parse strptime (get (f_start_date_local act)) = Ok dt)
         l ->
  forall t e, stats_loop strptime t l = Raise e ->
              e = TypeError \/ e = OverflowError.
Proof.
  induction 1 as [|act l Hact _ IH]; simpl; intros t e; [discriminate|].
  destruct (stats_step strptime t act) as [t'|e'] eqn:E; simpl.
  - apply IH.
  - intros H. injection H as <-. eapply stats_step_raises; eassumption.
Qed.
End SummaryFacts.

Example select_year_sample :
  select_year strptime_ascii 2025 ledger [] (desk_with ledger)
  = (printed ["Warning: Could not parse date 2025-02-01T18:00Z"]
       (desk_with ledger),
     Ok [london_run; cardiff_run]).
Proof. reflexivity. Qed.

Example main_sample :
  let d := fst (main strptime_ascii (for_year 2025) (desk_with ledger)) in
  option_map p_stats (data_js d)
  = Some {| totalRuns := "2";
            totalDistance := "17.0 km";
            maxDistance := "10.0 km";
            avgDistance := "8.5 km";
            runsPerWeek := "0.0";
            avgPace := "5:00 /km" |}
  /\ screenshots d = ["plots/output/yearly_summary_2025.png"].
Proof. split; reflexivity. Qed.

(** ** No run in the year *)

(** C8: when the selection keeps no record, [main] prints that no
    activities were found and returns normally, without raising; it writes
    no payload and takes no screenshot. *)
Theorem C8_no_runs_no_payload :
  forall (strptime : string -> option datetime) (a : args) (d : desk)
         (activities : list activity),
    data_file d = Stored activities ->
    snd (select_year strptime (year a) activities [] d) = Ok [] ->
    exists d',
      main strptime a d = (d', Ok tt)
      /\ data_js d' = data_js d
      /\ screenshots d' = screenshots d
      /\ exists lines,
           stdout d'
           = (stdout d ++ lines
              ++ [("Found 0 runs for year " ++ str_of_int (year a))%string;
                  "No activities found. Exiting."])%list.
Proof.
  intros strptime a d activities Hdata Hsel.
  rewrite select_year_spec in Hsel. simpl in Hsel. injection Hsel as Hsel.
  unfold main, mbind, inspect, json_load. rewrite Hdata.
  cbn [file_exists negb fst snd].
  destruct (output_dir d) eqn:Hout;
    cbn [negb when ret makedirs print data_file];
    rewrite ?Hdata, select_year_spec, Hsel;
    cbn [app List.length data_js screenshots stdout printed map];
    eexists; (split; [reflexivity|]);
    cbn [data_js screenshots stdout];
    (split; [reflexivity|]); (split; [reflexivity|]);
    exists (("Loading data from " ++ data a ++ "...")%string
            :: map warning (filter (warns strptime) activities));
    rewrite <- !app_assoc; reflexivity.
Qed.

Lemma C8_no_runs_no_payload_witness :
  exists d',
    main strptime_ascii (for_year 2023) (desk_with ledger) = (d', Ok tt)
    /\ data_js d' = data_js (desk_with ledger)
    /\ screenshots d' = screenshots (desk_with ledger)
    /\ exists lines,
         stdout d'
         = (stdout (desk_with ledger) ++ lines
            ++ [("Found 0 runs for year " ++ str_of_int (year (for_year 2023)))%string;
                "No activities found. Exiting."])%list.
Proof.
  apply (C8_no_runs_no_payload strptime_ascii (for_year 2023)
           (desk_with ledger) ledger); reflexivity.
Defined.

(** ** The second parse *)

Lemma parse_ok (strptime : string -> option datetime) (v : option string)
    (dt : datetime) :
  parse strptime v = Ok dt -> exists s, v = Some s /\ strptime s = Some dt.
Proof.
  unfold parse. destruct v as [s|]; [|discriminate].
  destruct (strptime s) as [dt'|] eqn:E; [|discriminate].
  intros H. injection H as ->. now exists s.
Qed.

(** C9: every record the selection returns has a [start_date_local] that
    is a string the parser accepts, with the year asked for, so the parse
    of lines 77-78 returns on it; the statistics loop over the selected
    records can only raise from the arithmetic on distances and times,
    never the parser's [ValueError]. *)
Theorem C9_selected_records_parse_again :
  forall (strptime : string -> option datetime) (year : Z)
         (activities : list activity) (d d' : desk) (selected : list activity),
    select_year strptime year activities [] d = (d', Ok selected) ->
    Forall (fun act =>
              exists s dt,
                get (f_start_date_local act) = Some s
                /\ strptime s = Some dt
                /\ parse strptime (get (f_start_date_local act)) = Ok dt
                /\ dt_year dt = year)
           selected
    /\ forall t e,
         stats_loop strptime t selected = Raise e ->
         e <> ValueError /\ (e = TypeError \/ e = OverflowError).
Proof.
  intros strptime year activities d d' selected H.
  rewrite select_year_spec in H. injection H as _ <-. simpl.
  assert (Hparse : Forall (fun act =>
            exists dt, parse strptime (get (f_start_date_local act)) = Ok dt
                       /\ dt_year dt = year)
            (filter (selects strptime year) activities)).
  { apply Forall_forall. intros act Hact. apply filter_In in Hact.
    now apply selects_parse. }
  split.
  - eapply Forall_impl; [|exact Hparse]. intros act (dt & Hdt & Hy).
    destruct (parse_ok _ _ _ Hdt) as (s & Hs & Hst). now exists s, dt.
  - intros t e He.
    assert (Hcases : e = TypeError \/ e = OverflowError).
    { eapply stats_loop_raises; [|exact He].
      eapply Forall_impl; [|exact Hparse]. intros act (dt & Hdt & _).
      now exists dt. }
    split; [|assumption]. destruct Hcases as [-> | ->]; discriminate.
Qed.

Lemma C9_selected_records_parse_again_witness :
  Forall (fun act =>
            exists s dt,
              get (f_start_date_local act) = Some s
              /\ strptime_ascii s = Some dt
              /\ parse strptime_ascii (get (f_start_date_local act)) = Ok dt
              /\ dt_year dt = 2025)
         [london_run; cardiff_run]
  /\ forall t e,
       stats_loop strptime_ascii t [london_run; cardiff_run] = Raise e ->
       e <> ValueError /\ (e = TypeError \/ e = OverflowError).
Proof.
  apply (C9_selected_records_parse_again strptime_ascii 2025 ledger
           (desk_with ledger)
           (printed ["Warning: Could not parse date 2025-02-01T18:00Z"]
              (desk_with ledger))).
  reflexivity.
Defined.

(** ** Warnings *)

(** C10: the selection prints one warning for each record of [warned], and
    a record is warned about exactly when it is a run whose
    [start_date_local] is a non-empty string the parser rejects; a record
    whose [start_date_local] is missing or [null] is neither selected nor
    warned about. *)
Theorem C10_warning_only_for_unparseable :
  forall (strptime : string -> option datetime) (year : Z)
         (activities : list activity) (d : desk),
    exists warned selected,
      select_year strptime year activities [] d
      = (printed (map warning warned) d, Ok selected)
      /\ (forall a,
            In a warned <->
            In a activities
            /\ get (f_type a) = Some "Run"
            /\ exists s, f_start_date_local a = Val s /\ s <> ""
                         /\ strptime s = None)
      /\ (forall a,
            f_start_date_local a = Absent \/ f_start_date_local a = Null ->
            ~ In a warned /\ ~ In a selected).
Proof.
  intros strptime year activities d.
  exists (filter (warns strptime) activities),
         (filter (selects strptime year) activities).
  split; [apply select_year_spec|]. split.
  - intros a. rewrite filter_In, warns_inv. tauto.
  - intros a Ha. split; intros Hin; apply filter_In in Hin;
      destruct Hin as [_ Hin].
    + apply warns_inv in Hin. destruct Hin as (_ & s & Hs & _).
      destruct Ha as [Ha|Ha]; congruence.
    + unfold selects, dated_run in Hin.
      destruct Ha as [Ha|Ha]; rewrite Ha in Hin; simpl in Hin;
        rewrite andb_false_r in Hin; discriminate.
Qed.

Example warning_sample :
  stdout (fst (select_year strptime_ascii 2025
                 [undated_run 5 (Val "2025-02-01T18:00Z");
                  undated_run 6 Null; undated_run 8 Absent;
                  undated_run 9 (Val "")]
                 [] (desk_with [])))
  = ["Warning: Could not parse date 2025-02-01T18:00Z"].
Proof. reflexivity. Qed.

(** * Further properties of the downloader *)

(** ** Credentials *)

Lemma get_client_cases (r : remote) (w : world) :
  match token_file w with
  | None =>
      get_client r w
      = (logged [(ERROR, TOKEN_FILE
                         ++ " not found. Please run authenticate.py first.")] w,
         Ok None)
  | Some tk =>
      if expiring r tk then
        match refresh_access_token r (refresh_token tk) with
        | Ok tk' =>
            exists w',
              get_client r w = (w', Ok (Some tk'))
              /\ token_file w' = Some tk'
              /\ activities_file w' = activities_file w
        | Raise e =>
            get_client r w
            = (logged [(INFO, "Access token expired or expiring soon. Refreshing...");
                       (ERROR, "Failed to refresh token: " ++ exn_message e)] w,
               Ok None)
        end
      else get_client r w = (w, Ok (Some tk))
  end.
Proof.
  unfold get_client, load_tokens, expiring, mbind.
  destruct (token_file w) as [tk|] eqn:Htk.
  - simpl. destruct (num_gt _ _).
    + simpl. destruct (refresh_access_token r (refresh_token tk)) as [tk'|e].
      * simpl. eexists. split; [reflexivity|]. now split.
      * simpl. unfold logged. simpl. now rewrite <- app_assoc.
    + reflexivity.
  - reflexivity.
Qed.

Lemma download_activities_unfold (r : remote) (limit : option Z) :
  download_activities r limit
  = (client <~ get_client r ;;
     match client with
     | None => ret tt
     | Some c => sync_with r limit c
     end).
Proof. reflexivity. Qed.



Lemma tokens_ret {A : Type} (a : A) : keeps_tokens (@ret world A a).
Proof. now intros w. Qed.

Lemma tokens_raise {A : Type} (e : exn) : keeps_tokens (@raise world A e).
Proof. now intros w. Qed.

Lemma tokens_lift {A : Type} (r : result A) : keeps_tokens (lift r).
Proof. now intros w. Qed.

Lemma tokens_logging (lv : level) (msg : string) : keeps_tokens (logging lv msg).
Proof. now intros w. Qed.

Lemma tokens_write_activities (l : list activity) :
  keeps_tokens (write_activities l).
Proof. now intros w. Qed.

Lemma tokens_mbind {A B : Type} (m : M world A) (k : A -> M world B) :
  keeps_tokens m -> (forall a, keeps_tokens (k a)) -> keeps_tokens (mbind m k).
Proof.
  intros Hm Hk w. unfold mbind. specialize (Hm w).
  destruct (m w) as [w' [a|e]]; simpl in *; [|assumption].
  now rewrite Hk.
Qed.

Lemma tokens_when (c : bool) (m : M world unit) :
  keeps_tokens m -> keeps_tokens (when c m).
Proof. intros Hm. destruct c; [assumption|apply tokens_ret]. Qed.

Lemma tokens_try_except (m : M world unit) (handler : exn -> M world unit) :
  keeps_tokens m -> (forall e, keeps_tokens (handler e)) ->
  keeps_tokens (try_except m handler).
Proof.
  intros Hm Hh w. unfold try_except. specialize (Hm w).
  destruct (m w) as [w' [[]|e]]; simpl in *; [assumption|].
  destruct e; try (now rewrite Hh); assumption.
Qed.

Create HintDb tokens.
#[local] Hint Resolve tokens_ret tokens_raise tokens_lift tokens_logging
  tokens_write_activities tokens_mbind tokens_when tokens_try_except : tokens.

Lemma tokens_load_cached_activities : keeps_tokens load_cached_activities.
Proof.
  intros w. unfold load_cached_activities.
  destruct (activities_file w); reflexivity.
Qed.

Lemma tokens_fetch_loop (items : list strava_model) (failure : option exn) :
  forall new_activities, keeps_tokens (fetch_loop items failure new_activities).
Proof.
  induction items as [|a items IH]; simpl; intros acc.
  - destruct failure; auto with tokens.
  - apply tokens_mbind; [auto with tokens|]. intros activity_data.
    apply tokens_mbind; [auto with tokens|]. intros _. apply IH.
Qed.

Lemma tokens_save_activities (l : list activity) :
  keeps_tokens (save_activities l).
Proof. unfold save_activities. auto 6 with tokens. Qed.

Lemma tokens_fetch_and_save (r : remote) (c : tokens) (cached : list activity)
    (after : option string) (limit : option Z) :
  keeps_tokens (fetch_and_save r c cached after limit).
Proof.
  unfold fetch_and_save. apply tokens_mbind; [apply tokens_fetch_loop|].
  intros new. apply tokens_mbind; [auto with tokens|]. intros _.
  destruct new; [auto with tokens|].
  apply tokens_mbind; [auto with tokens|]. intros all.
  apply tokens_save_activities.
Qed.

Lemma tokens_sync_with (r : remote) (limit : option Z) (c : tokens) :
  keeps_tokens (sync_with r limit c).
Proof.
  unfold sync_with.
  apply tokens_mbind; [apply tokens_load_cached_activities|]. intros cached.
  apply tokens_mbind; [auto with tokens|]. intros [cached_activities after].
  apply tokens_mbind; [auto with tokens|]. intros _.
  apply tokens_mbind; [auto with tokens|]. intros _.
  apply tokens_try_except; [apply tokens_fetch_and_save|auto with tokens].
Qed.

(** X2: a run of the downloader writes the token file only to store the
    answer of a successful refresh, which it asks for only when less than
    five minutes are left; a credential that is not due is neither
    refreshed nor rewritten. *)
Theorem token_file_changes_only_by_refresh :
  forall (r : remote) (limit : option Z) (w : world),
    token_file (fst (download_activities r limit w)) = token_file w
    \/ exists tk tk',
         token_file w = Some tk
         /\ expiring r tk = true
         /\ refresh_access_token r (refresh_token tk) = Ok tk'
         /\ token_file (fst (download_activities r limit w)) = Some tk'.
Proof.
  intros r limit w. rewrite download_activities_unfold. unfold mbind.
  pose proof (get_client_cases r w) as H.
  destruct (token_file w) as [tk|] eqn:Htk.
  - destruct (expiring r tk) eqn:Hexp.
    + destruct (refresh_access_token r (refresh_token tk)) as [tk'|e] eqn:Href.
      * destruct H as (w' & H & Htk' & _). rewrite H. right.
        exists tk, tk'. repeat split; try assumption.
        now rewrite tokens_sync_with.
      * rewrite H. left. simpl. assumption.
    + rewrite H. left. now rewrite tokens_sync_with.
  - rewrite H. left. simpl. assumption.
Qed.

(** ** The exception that escapes *)



Lemma start_date_key_none (x : activity) :
  start_date_key x = None <-> f_start_date x = Null.
Proof.
  unfold start_date_key. destruct (f_start_date x); simpl; split; congruence.
Qed.




Lemma when_logging_ok (c : bool) (lv : level) (msg : string) (w : world) :
  exists w1,
    when c (logging lv msg) w = (w1, Ok tt)
    /\ activities_file w1 = activities_file w.
Proof. destruct c; simpl; eexists; split; reflexivity. Qed.

Lemma load_cached_activities_cases (w : world) :
  exists w1 cached,
    load_cached_activities w = (w1, Ok cached)
    /\ activities_file w1 = activities_file w
    /\ (cached = []
        \/ activities_file w = Stored cached).
Proof.
  unfold load_cached_activities.
  destruct (activities_file w) as [| |stored] eqn:Hfile.
  - exists w, []. repeat split; [assumption|now left].
  - eexists _, []. split; [reflexivity|]. split; [assumption|now left].
  - exists w, stored. repeat split; [assumption|now right].
Qed.



Lemma get_client_returns (r : remote) (w : world) :
  exists w0 client,
    get_client r w = (w0, Ok client)
    /\ activities_file w0 = activities_file w.
Proof.
  pose proof (get_client_cases r w) as H.
  pose proof (keeps_get_client r w) as Hk.
  destruct (token_file w) as [tk|].
  - destruct (expiring r tk).
    + destruct (refresh_access_token r (refresh_token tk)) as [tk'|e].
      * destruct H as (w' & H & _ & Hf). now exists w', (Some tk').
      * rewrite H in Hk |- *. simpl in Hk. now eexists _, None.
    + exists w, (Some tk). now split.
  - rewrite H in Hk |- *. simpl in Hk. now eexists _, None.
Qed.




(** ** A record without an id *)

Lemma activity_map_raises (l : list activity) :
  forall d e, activity_map d l = Raise e ->
              e = KeyError "id" /\ Exists (fun a => f_id a = Absent) l.
Proof.
  induction l as [|a l IH]; simpl; intros d e H; [discriminate|].
  destruct (f_id a) as [| |i] eqn:Hid; simpl in H.
  - injection H as <-. split; [reflexivity|now left].
  - destruct (IH _ _ H) as [He Hex]. split; [assumption|now right].
  - destruct (IH _ _ H) as [He Hex]. split; [assumption|now right].
Qed.

Lemma activity_map_absent (l : list activity) :
  Exists (fun a => f_id a = Absent) l ->
  forall d, activity_map d l = Raise (KeyError "id").
Proof.
  induction 1 as [a l Ha|a l _ IH]; simpl; intros d.
  - now rewrite Ha.
  - destruct (getitem "id" (f_id a)) as [k|e] eqn:Hk; simpl.
    + apply IH.
    + destruct (f_id a); simpl in Hk; try discriminate. now injection Hk as <-.
Qed.

Lemma all_activities_raises (cached new : list activity) (e : exn) :
  all_activities cached new = Raise e ->
  e = KeyError "id" /\ Exists (fun a => f_id a = Absent) (cached ++ new).
Proof.
  unfold all_activities.
  destruct (activity_map [] cached) as [d|e1] eqn:H1; simpl.
  - destruct (activity_map d new) as [d'|e2] eqn:H2; simpl; [discriminate|].
    intros H. injection H as <-. apply activity_map_raises in H2.
    destruct H2 as [He Hex]. split; [assumption|].
    apply Exists_app. now right.
  - intros H. injection H as <-. apply activity_map_raises in H1.
    destruct H1 as [He Hex]. split; [assumption|].
    apply Exists_app. now left.
Qed.

Lemma all_activities_absent (cached new : list activity) :
  Exists (fun a => f_id a = Absent) (cached ++ new) ->
  all_activities cached new = Raise (KeyError "id").
Proof.
  intros H. apply Exists_app in H. unfold all_activities.
  destruct H as [H|H].
  - now rewrite activity_map_absent.
  - destruct (activity_map [] cached) as [d|e] eqn:H1; simpl.
    + now rewrite activity_map_absent.
    + apply activity_map_raises in H1. now destruct H1 as [-> _].
Qed.

(** The loop over a generator that runs to its end. *)
Lemma fetch_loop_complete (items : list strava_model) (new : list activity) :
  map serialize items = map Ok new ->
  forall acc w,
    exists w',
      fetch_loop items None acc w = (w', Ok (acc ++ new)%list)
      /\ activities_file w' = activities_file w
      /\ token_file w' = token_file w.
Proof.
  revert new. induction items as [|a items IH]; intros [|b new] Hs acc w;
    simpl in Hs; try discriminate.
  - exists w. simpl. now rewrite app_nil_r.
  - injection Hs as Ha Hs. simpl. unfold mbind at 1, lift. rewrite Ha.
    unfold mbind at 1, logging. cbv beta iota.
    match goal with
    | |- context [fetch_loop items None ?a ?w1] =>
        destruct (IH new Hs a w1) as (w' & Hw' & Hf & Ht)
    end.
    exists w'. rewrite Hw'. rewrite <- app_assoc. now repeat split.
Qed.

(** X4: the merge raises exactly when a cached or a fetched record has no
    [id] key, and then it is [KeyError('id')]; a fetch that ran to its end
    is then dropped as a whole, with the cache file as it was, so one such
    record in the cache blocks every later sync that fetches something. *)
Theorem missing_id_stops_the_merge :
  (forall cached new,
      all_activities cached new = Raise (KeyError "id")
      <-> Exists (fun a => f_id a = Absent) (cached ++ new))
  /\ (forall cached new e,
        all_activities cached new = Raise e -> e = KeyError "id")
  /\ (forall r c cached after limit w new,
        failure (get_activities r c after limit) = None ->
        map serialize (yielded (get_activities r c after limit)) = map Ok new ->
        new <> [] ->
        Exists (fun a => f_id a = Absent) (cached ++ new) ->
        exists w',
          fetch_and_save r c cached after limit w = (w', Raise (KeyError "id"))
          /\ activities_file w' = activities_file w
          /\ token_file w' = token_file w).
Proof.
  split; [|split].
  - intros cached new. split.
    + intros H. now apply all_activities_raises in H.
    + apply all_activities_absent.
  - intros cached new e H. now apply all_activities_raises in H.
  - intros r c cached after limit w new Hf Hs Hne Hex.
    unfold fetch_and_save. rewrite Hf.
    destruct (fetch_loop_complete _ _ Hs [] w) as (w1 & Hw1 & Hf1 & Ht1).
    unfold mbind at 1. rewrite Hw1. simpl app.
    unfold mbind at 1, logging. cbv beta iota.
    destruct new as [|b new]; [congruence|].
    unfold mbind at 1, lift. rewrite (all_activities_absent _ _ Hex).
    eexists. split; [reflexivity|]. now split.
Qed.

Lemma missing_id_stops_the_merge_witness :
  all_activities [london_run; anonymous_run] [cardiff_run]
  = Raise (KeyError "id").
Proof.
  apply (proj1 missing_id_stops_the_merge [london_run; anonymous_run]
           [cardiff_run]).
  right. left. reflexivity.
Defined.

(** ** Ties in the stored order *)

Lemma ltb_irrefl (a : string) : (a <? a)%string = false.
Proof. apply str_le_refl. Qed.

Lemma insert_sorted_stable {A : Type} (key : A -> option string) (s : string)
    (x : A) (l r : list A) :
  insert_sorted key x l = Ok r ->
  filter (sorts_under key s) r = filter (sorts_under key s) (x :: l).
Proof.
  revert r. induction l as [|y l IH]; simpl; intros r H.
  - now injection H as <-.
  - destruct (py_lt (key y) (key x)) as [b|e] eqn:E; simpl in H;
      [|discriminate].
    apply py_lt_ok in E. destruct E as (ky & kx & Hky & Hkx & ->).
    destruct (ky <? kx)%string eqn:Hlt; [|now injection H as <-].
    destruct (insert_sorted key x l) as [r'|e] eqn:Hi; simpl in H;
      [|discriminate].
    injection H as <-. simpl. rewrite (IH _ eq_refl). simpl.
    assert (Hy' : sorts_under key s y = (ky =? s)%string)
      by (unfold sorts_under; now rewrite Hky).
    assert (Hx' : sorts_under key s x = (kx =? s)%string)
      by (unfold sorts_under; now rewrite Hkx).
    rewrite Hy', Hx'.
    destruct (String.eqb_spec ky s) as [->|Hy];
      destruct (String.eqb_spec kx s) as [->|Hx]; try reflexivity.
    now rewrite ltb_irrefl in Hlt.
Qed.

Lemma list_sort_stable {A : Type} (key : A -> option string) (s : string)
    (l r : list A) :
  list_sort key l = Ok r ->
  filter (sorts_under key s) r = filter (sorts_under key s) l.
Proof.
  revert r. induction l as [|x l IH]; simpl; intros r H.
  - now injection H as <-.
  - destruct (list_sort key l) as [r'|e] eqn:Hs; simpl in H; [|discriminate].
    apply (insert_sorted_stable key s) in H. rewrite H. simpl.
    now rewrite (IH _ eq_refl).
Qed.

(** X5: the sort of [save_activities] is stable: the records that share a
    [start_date] are stored in the order they had in the list given, so
    after a merge cached records come before fetched ones with the same
    start. *)
Theorem save_activities_keeps_order_of_ties :
  forall (activities : list activity) (w w' : world),
    save_activities activities w = (w', Ok tt) ->
    exists stored,
      activities_file w' = Stored stored
      /\ List.length stored = List.length activities
      /\ forall s, filter (sorts_under start_date_key s) stored
                   = filter (sorts_under start_date_key s) activities.
Proof.
  intros activities w w' H. apply save_activities_ok in H.
  destruct H as (stored & Hs & Hf & _). exists stored.
  split; [assumption|]. split.
  - symmetry. apply Permutation_length. now apply list_sort_perm in Hs.
  - intros s. now apply list_sort_stable.
Qed.

Lemma save_activities_keeps_order_of_ties_witness :
  exists stored,
    activities_file
      (fst (save_activities [cardiff_run; london_run; london_run_renamed]
              first_sync))
    = Stored stored
    /\ List.length stored = 3%nat
    /\ forall s, filter (sorts_under start_date_key s) stored
                 = filter (sorts_under start_date_key s)
                     [cardiff_run; london_run; london_run_renamed].
Proof.
  apply (save_activities_keeps_order_of_ties
           [cardiff_run; london_run; london_run_renamed] first_sync).
  reflexivity.
Defined.

(** ** A whole run *)

Lemma try_except_file (m : M world unit) (lv : level) (msg : exn -> string)
    (w : world) :
  activities_file (fst (try_except m (fun e => logging lv (msg e)) w))
  = activities_file (fst (m w)).
Proof.
  unfold try_except. destruct (m w) as [w1 [[]|e]]; [reflexivity|].
  destruct e; reflexivity.
Qed.

(** What a run can leave in the cache file. *)
Lemma sync_with_outcome (r : remote) (limit : option Z) (c : tokens)
    (w : world) :
  activities_file (fst (sync_with r limit c w)) = activities_file w
  \/ exists cached sorted after new merged stored,
       snd (load_cached_activities w) = Ok cached
       /\ latest_start_date cached = Ok (sorted, after)
       /\ failure (get_activities r c after limit) = None
       /\ map serialize (yielded (get_activities r c after limit)) = map Ok new
       /\ new <> []
       /\ all_activities sorted new = Ok merged
       /\ list_sort start_date_key merged = Ok stored
       /\ activities_file (fst (sync_with r limit c w)) = Stored stored.
Proof.
  remember (activities_file (fst (sync_with r limit c w))) as F eqn:HF.
  unfold sync_with in HF.
  destruct (load_cached_activities_cases w) as (w1 & cached & Hload & Hf1 & _).
  unfold mbind at 1 in HF. rewrite Hload in HF. unfold mbind at 1, lift in HF.
  destruct (latest_start_date cached) as [[sorted after]|e] eqn:Hl;
    [|left; simpl in HF; congruence].
  destruct (when_logging_ok (truthy_str after) INFO
              ("Checking for activities after " ++ str_of_opt after ++ "...")
              w1) as (w2 & Hw2 & Hf2).
  unfold mbind at 1 in HF. rewrite Hw2 in HF.
  destruct (when_logging_ok (negb (truthy_str after)) INFO
              "No cached activities found. Downloading all (or up to limit)..."
              w2) as (w3 & Hw3 & Hf3).
  unfold mbind at 1 in HF. rewrite Hw3 in HF.
  rewrite (try_except_file _ ERROR
             (fun e => "Error fetching activities: " ++ exn_message e)) in HF.
  destruct (fetch_and_save r c sorted after limit w3) as [w4 res] eqn:Hfs.
  apply fetch_and_save_outcome in Hfs. simpl in HF.
  destruct Hfs as [Hsame|(Hfail & new & merged & stored & H1 & H2 & H3 & H4 & H5)].
  - left. congruence.
  - right. exists cached, sorted, after, new, merged, stored.
    rewrite Hload. simpl. repeat split; try assumption. congruence.
Qed.

Lemma download_activities_outcome (r : remote) (limit : option Z) (w : world) :
  activities_file (fst (download_activities r limit w)) = activities_file w
  \/ exists c cached sorted after new merged stored,
       snd (get_client r w) = Ok (Some c)
       /\ snd (load_cached_activities w) = Ok cached
       /\ latest_start_date cached = Ok (sorted, after)
       /\ failure (get_activities r c after limit) = None
       /\ map serialize (yielded (get_activities r c after limit)) = map Ok new
       /\ new <> []
       /\ all_activities sorted new = Ok merged
       /\ list_sort start_date_key merged = Ok stored
       /\ activities_file (fst (download_activities r limit w)) = Stored stored.
Proof.
  rewrite download_activities_unfold. unfold mbind.
  destruct (get_client_returns r w) as (w0 & client & Hc & Hf0).
  rewrite Hc. destruct client as [c|]; [|left; exact Hf0].
  destruct (sync_with_outcome r limit c w0)
    as [Hsame|(cached & sorted & after & new & merged & stored & H)].
  - left. congruence.
  - right. exists c, cached, sorted, after, new, merged, stored.
    split; [reflexivity|].
    assert (Hload : snd (load_cached_activities w0)
                    = snd (load_cached_activities w)).
    { unfold load_cached_activities. rewrite Hf0.
      destruct (activities_file w); reflexivity. }
    rewrite <- Hload. exact H.
Qed.

Lemma latest_start_date_perm (cached sorted : list activity)
    (after : option string) :
  latest_start_date cached = Ok (sorted, after) -> Permutation cached sorted.
Proof.
  unfold latest_start_date. destruct cached as [|c cached].
  - intros H. injection H as <- _. constructor.
  - destruct (list_sort start_date_key (c :: cached)) as [s|e] eqn:Hs;
      [|discriminate]. simpl.
    destruct (last_item s); [|discriminate]. simpl.
    intros H. injection H as <- _. now apply list_sort_perm in Hs.
Qed.

Lemma all_activities_from (cached new merged : list activity) :
  all_activities cached new = Ok merged ->
  forall a, In a merged -> In a cached \/ In a new.
Proof.
  intros H a Ha. apply all_activities_spec in H.
  destruct H as (_ & _ & _ & _ & _ & Hwin). specialize (Hwin a Ha).
  destruct (last_with_id (id_key a) new) as [b|] eqn:E.
  - subst b. right. now apply last_with_id_in in E.
  - left. now apply last_with_id_in in Hwin.
Qed.

Lemma all_activities_nonempty (cached new merged : list activity) :
  all_activities cached new = Ok merged -> new <> [] -> merged <> [].
Proof.
  intros H Hne. apply all_activities_spec in H.
  destruct H as (_ & _ & _ & _ & Hids & _).
  destruct new as [|b new]; [congruence|]. intros ->.
  apply (proj2 (Hids (id_key b))). right. now left.
Qed.

(** X6: a run of the downloader leaves the cache file as it was or with a
    list that is not empty, non-decreasing by [start_date] and without two
    records of the same id, every record carrying an [id] key. *)
Theorem written_cache_is_sorted_and_unique :
  forall (r : remote) (limit : option Z) (w : world),
    activities_file (fst (download_activities r limit w)) = activities_file w
    \/ exists stored,
         activities_file (fst (download_activities r limit w)) = Stored stored
         /\ stored <> []
         /\ non_decreasing start_date_key stored
         /\ NoDup (map id_key stored)
         /\ Forall has_id stored.
Proof.
  intros r limit w.
  destruct (download_activities_outcome r limit w)
    as [H|(c & cached & sorted & after & new & merged & stored
           & _ & _ & _ & _ & _ & Hne & Hm & Hs & Hf)]; [now left|].
  right. exists stored. split; [assumption|].
  pose proof (list_sort_perm _ _ _ Hs) as Hp.
  pose proof (all_activities_nonempty _ _ _ Hm Hne) as Hmne.
  destruct (all_activities_spec _ _ _ Hm) as (_ & _ & Hid & Hnd & _ & _).
  split; [|split; [|split]].
  - intros ->. apply Permutation_sym, Permutation_nil in Hp. contradiction.
  - now apply list_sort_sorted in Hs.
  - eapply Permutation_NoDup; [apply Permutation_map; exact Hp|assumption].
  - eapply Permutation_Forall; eassumption.
Qed.

Lemma fetch_and_save_success (r : remote) (c : tokens)
    (cached : list activity) (after : option string) (limit : option Z)
    (w : world) (new merged stored : list activity) :
  failure (get_activities r c after limit) = None ->
  map serialize (yielded (get_activities r c after limit)) = map Ok new ->
  new <> [] ->
  all_activities cached new = Ok merged ->
  list_sort start_date_key merged = Ok stored ->
  exists w',
    fetch_and_save r c cached after limit w = (w', Ok tt)
    /\ activities_file w' = Stored stored
    /\ token_file w' = token_file w.
Proof.
  intros Hf Hs Hne Hm Hsort. unfold fetch_and_save. rewrite Hf.
  destruct (fetch_loop_complete _ _ Hs [] w) as (w1 & Hw1 & Hf1 & Ht1).
  unfold mbind at 1. rewrite Hw1. simpl app.
  unfold mbind at 1, logging. cbv beta iota.
  destruct new as [|b new]; [congruence|].
  unfold mbind at 1, lift. rewrite Hm.
  unfold save_activities, mbind, lift. rewrite Hsort. simpl.
  eexists. split; [reflexivity|]. now split.
Qed.

Lemma sync_with_success (r : remote) (limit : option Z) (c : tokens)
    (w : world) (cached sorted : list activity) (after : option string)
    (new merged stored : list activity) :
  snd (load_cached_activities w) = Ok cached ->
  latest_start_date cached = Ok (sorted, after) ->
  failure (get_activities r c after limit) = None ->
  map serialize (yielded (get_activities r c after limit)) = map Ok new ->
  new <> [] ->
  all_activities sorted new = Ok merged ->
  list_sort start_date_key merged = Ok stored ->
  exists w',
    sync_with r limit c w = (w', Ok tt)
    /\ activities_file w' = Stored stored
    /\ token_file w' = token_file w.
Proof.
  intros Hload Hl Hf Hs Hne Hm Hsort. unfold sync_with.
  pose proof (tokens_load_cached_activities w) as Ht0.
  destruct (load_cached_activities w) as [w1 res] eqn:Hw1. simpl in Hload, Ht0.
  subst res. unfold mbind at 1. rewrite Hw1. unfold mbind at 1, lift.
  rewrite Hl.
  match goal with
  | |- context [when ?b (logging ?lv ?msg) ;;; _] =>
      pose proof (tokens_when b _ (tokens_logging lv msg) w1) as Ht1;
      destruct (when_logging_ok b lv msg w1) as (w2 & Hw2 & _)
  end.
  unfold mbind at 1. rewrite Hw2 in Ht1 |- *. simpl in Ht1.
  match goal with
  | |- context [when ?b (logging ?lv ?msg) ;;; _] =>
      pose proof (tokens_when b _ (tokens_logging lv msg) w2) as Ht2;
      destruct (when_logging_ok b lv msg w2) as (w3 & Hw3 & _)
  end.
  unfold mbind at 1. rewrite Hw3 in Ht2 |- *. simpl in Ht2.
  destruct (fetch_and_save_success r c sorted after limit w3 new merged stored
              Hf Hs Hne Hm Hsort) as (w' & Hw' & Hfile & Htok).
  unfold try_except. rewrite Hw'. exists w'. split; [reflexivity|].
  split; [assumption|]. congruence.
Qed.

(** X7: with a credential that is not due, a cache and a fetch in which
    every record has an [id] and no [start_date] is [null], and a fetch
    that ran to its end with at least one record, the run returns
    normally and the cache file holds the sorted merge of the sorted cache
    and the fetched records; its ids are those of the cache and of the
    fetch; the token file is as it was. *)
Theorem complete_fetch_is_persisted :
  forall (r : remote) (limit : option Z) (w : world) (tk : tokens)
         (cached sorted : list activity) (after : option string)
         (new : list activity),
    token_file w = Some tk ->
    expiring r tk = false ->
    snd (load_cached_activities w) = Ok cached ->
    latest_start_date cached = Ok (sorted, after) ->
    failure (get_activities r tk after limit) = None ->
    map serialize (yielded (get_activities r tk after limit)) = map Ok new ->
    new <> [] ->
    Forall has_id (cached ++ new) ->
    Forall (fun x => f_start_date x <> Null) (cached ++ new) ->
    exists w' merged stored,
      download_activities r limit w = (w', Ok tt)
      /\ all_activities sorted new = Ok merged
      /\ list_sort start_date_key merged = Ok stored
      /\ activities_file w' = Stored stored
      /\ token_file w' = Some tk
      /\ (forall k, In k (map id_key stored)
                    <-> In k (map id_key cached) \/ In k (map id_key new)).
Proof.
  intros r limit w tk cached sorted after new Htk Hexp Hload Hl Hf Hs Hne
    Hid Hdate.
  pose proof (latest_start_date_perm _ _ _ Hl) as Hp.
  apply Forall_app in Hid. destruct Hid as [Hidc Hidn].
  destruct (all_activities_total sorted new) as [merged Hm];
    [eapply Permutation_Forall; eassumption|assumption|].
  destruct (list_sort_total start_date_key merged) as [stored Hsort].
  { apply Forall_forall. intros a Ha. rewrite start_date_key_none.
    rewrite Forall_forall in Hdate. apply Hdate. apply in_or_app.
    destruct (all_activities_from _ _ _ Hm a Ha) as [H|H]; [left|now right].
    eapply Permutation_in; [apply Permutation_sym; exact Hp|assumption]. }
  destruct (sync_with_success r limit tk w cached sorted after new merged stored
              Hload Hl Hf Hs Hne Hm Hsort) as (w' & Hw' & Hfile & Htok).
  exists w', merged, stored. rewrite download_activities_unfold.
  unfold mbind. pose proof (get_client_cases r w) as Hc.
  rewrite Htk, Hexp in Hc. rewrite Hc. split; [assumption|].
  split; [assumption|]. split; [assumption|]. split; [assumption|].
  split; [congruence|]. intros k.
  destruct (all_activities_spec _ _ _ Hm) as (_ & _ & _ & _ & Hids & _).
  pose proof (list_sort_perm _ _ _ Hsort) as Hps.
  assert (Hk : In k (map id_key stored) <-> In k (map id_key merged)).
  { split; apply Permutation_in; [apply Permutation_sym|];
      now apply Permutation_map. }
  assert (Hkc : In k (map id_key sorted) <-> In k (map id_key cached)).
  { split; apply Permutation_in; [apply Permutation_sym|];
      now apply Permutation_map. }
  rewrite Hk, Hids, Hkc. reflexivity.
Qed.

Lemma complete_fetch_is_persisted_witness :
  exists w' merged stored,
    download_activities with_news None synced = (w', Ok tt)
    /\ all_activities [london_run; new_york_run]
         [london_run_renamed; cardiff_run] = Ok merged
    /\ list_sort start_date_key merged = Ok stored
    /\ activities_file w' = Stored stored
    /\ token_file w' = Some sample_tokens
    /\ (forall k, In k (map id_key stored)
                  <-> In k (map id_key [new_york_run; london_run])
                      \/ In k (map id_key [london_run_renamed; cardiff_run])).
Proof.
  apply (complete_fetch_is_persisted with_news None synced sample_tokens
           [new_york_run; london_run] [london_run; new_york_run]
           (Some "2025-01-05T12:00:00Z") [london_run_renamed; cardiff_run]);
    try reflexivity.
  - discriminate.
  - repeat constructor; discriminate.
  - repeat constructor; discriminate.
Defined.

(** ** Running the downloader again *)

Lemma load_cached_activities_file (w1 w2 : world) :
  activities_file w1 = activities_file w2 ->
  snd (load_cached_activities w1) = snd (load_cached_activities w2).
Proof.
  intros H. unfold load_cached_activities. rewrite H.
  destruct (activities_file w2); reflexivity.
Qed.

Lemma load_cached_activities_stored (w : world) (l : list activity) :
  activities_file w = Stored l -> snd (load_cached_activities w) = Ok l.
Proof. intros H. unfold load_cached_activities. now rewrite H. Qed.

Lemma latest_start_date_sorted (l sorted : list activity)
    (after : option string) :
  non_decreasing start_date_key l ->
  latest_start_date l = Ok (sorted, after) -> sorted = l.
Proof.
  intros Hs. unfold latest_start_date. destruct l as [|c l].
  - intros H. now injection H as <- _.
  - rewrite (list_sort_fixed _ _ Hs). unfold bind.
    destruct (last_item (c :: l)); [|discriminate].
    intros H. now injection H as <- _.
Qed.

Lemma map_Ok_inj {A : Type} (l1 l2 : list A) :
  map Ok l1 = map Ok l2 -> l1 = l2.
Proof.
  revert l2. induction l1 as [|a l1 IH]; intros [|b l2] H; simpl in H;
    try discriminate; [reflexivity|].
  injection H as -> H. f_equal. now apply IH.
Qed.

(** The stored list takes the same fetched records again without change. *)
Lemma stored_merge_fixed (cached new merged stored : list activity) :
  all_activities cached new = Ok merged ->
  list_sort start_date_key merged = Ok stored ->
  all_activities stored new = Ok stored
  /\ list_sort start_date_key stored = Ok stored.
Proof.
  intros Hm Hs.
  destruct (all_activities_spec _ _ _ Hm)
    as (_ & Hn & Hmid & Hnd & Hids & Hwin).
  pose proof (list_sort_perm _ _ _ Hs) as Hp. split.
  - apply all_activities_fixed; try assumption.
    + eapply Permutation_Forall; eassumption.
    + eapply Permutation_NoDup; [apply Permutation_map; exact Hp|assumption].
    + intros k a E. eapply Permutation_in; [exact Hp|].
      pose proof (last_with_id_in _ _ _ E) as [Ha Hk].
      assert (Hin : In k (map id_key merged)).
      { apply Hids. right. rewrite <- Hk. now apply in_map. }
      apply in_map_iff in Hin. destruct Hin as (a' & Hk' & Ha').
      specialize (Hwin a' Ha'). rewrite Hk', E in Hwin. now subst.
  - apply list_sort_fixed. eapply list_sort_sorted, Hs.
Qed.

Lemma get_client_token_file (r : remote) (w1 w2 : world) :
  token_file w1 = token_file w2 ->
  snd (get_client r w1) = snd (get_client r w2).
Proof.
  intros H. pose proof (get_client_cases r w1) as H1.
  pose proof (get_client_cases r w2) as H2. rewrite H in H1.
  destruct (token_file w2) as [tk|].
  - destruct (expiring r tk).
    + destruct (refresh_access_token r (refresh_token tk)) as [tk'|e].
      * destruct H1 as (w1' & -> & _). now destruct H2 as (w2' & -> & _).
      * now rewrite H1, H2.
    + now rewrite H1, H2.
  - now rewrite H1, H2.
Qed.

Lemma get_client_none (r : remote) (w w0 : world) :
  get_client r w = (w0, Ok None) -> token_file w0 = token_file w.
Proof.
  pose proof (get_client_cases r w) as H.
  destruct (token_file w) as [tk|] eqn:Htk.
  - destruct (expiring r tk).
    + destruct (refresh_access_token r (refresh_token tk)) as [tk'|e].
      * destruct H as (w' & -> & _). discriminate.
      * rewrite H. intros E. injection E as <-. exact Htk.
    + rewrite H. discriminate.
  - rewrite H. intros E. injection E as <-. exact Htk.
Qed.

(** X8: when the service answers a fetch alike whatever the cursor, a
    second run of the downloader leaves the cache file exactly as the
    first run left it. *)
Theorem second_run_changes_nothing :
  forall (r : remote) (limit : option Z) (w : world),
    same_answer r limit ->
    activities_file
      (fst (download_activities r limit
              (fst (download_activities r limit w))))
    = activities_file (fst (download_activities r limit w)).
Proof.
  intros r limit w Hsame.
  remember (fst (download_activities r limit w)) as w1 eqn:Hw1.
  destruct (download_activities_outcome r limit w1)
    as [H|(c' & cached' & sorted' & after' & new' & merged' & stored'
           & Hc' & Hload' & Hl' & Hf' & Hs' & Hne' & Hm' & Hsort' & Hfile')];
    [exact H|].
  rewrite Hfile'. symmetry.
  destruct (get_client_returns r w) as (w0 & client & Hc & Hf0).
  rewrite download_activities_unfold in Hw1. unfold mbind in Hw1.
  rewrite Hc in Hw1. destruct client as [c|].
  - destruct (sync_with_outcome r limit c w0)
      as [Hkeep|(cached & sorted & after & new & merged & stored
                 & _ & _ & Hf & Hs & Hne & Hm & Hsort & Hfile)];
      rewrite <- Hw1 in *.
    + rewrite (load_cached_activities_file w1 w0 Hkeep) in Hload'.
      rewrite (Hsame c' after' c after') in Hf', Hs'.
      destruct (sync_with_success r limit c w0 cached' sorted' after' new'
                  merged' stored' Hload' Hl' Hf' Hs' Hne' Hm' Hsort')
        as (w' & Hw' & Hfile1 & _).
      rewrite Hw' in Hw1. simpl in Hw1. now subst w1.
    + rewrite (load_cached_activities_stored w1 stored Hfile) in Hload'.
      injection Hload' as <-.
      pose proof (list_sort_sorted _ _ _ Hsort) as Hsorted.
      apply (latest_start_date_sorted _ _ _ Hsorted) in Hl'. subst sorted'.
      rewrite (Hsame c' after' c after) in Hs'. rewrite Hs in Hs'.
      apply map_Ok_inj in Hs'. subst new'.
      destruct (stored_merge_fixed _ _ _ _ Hm Hsort) as [Hm2 Hsort2].
      rewrite Hm2 in Hm'. injection Hm' as <-.
      rewrite Hsort2 in Hsort'. injection Hsort' as <-. exact Hfile.
  - simpl in Hw1. subst w1. exfalso.
    pose proof (get_client_none r w w0 Hc) as Ht.
    rewrite (get_client_token_file r w0 w Ht), Hc in Hc'. discriminate.
Qed.

Lemma second_run_changes_nothing_witness :
  activities_file
    (fst (download_activities with_news None
            (fst (download_activities with_news None synced))))
  = activities_file (fst (download_activities with_news None synced)).
Proof.
  apply (second_run_changes_nothing with_news None synced).
  intros c after c' after'. reflexivity.
Defined.

(** * Further properties of the summary script *)

(** ** The data file *)

(** X9: without the data file [main] prints the error and exits with
    status 1 before it creates the output directory; with a data file that
    is not JSON it creates the output directory, prints that it loads the
    data and lets the decoder's exception escape; in both cases no payload
    is written and no screenshot taken. *)
Theorem unreadable_data_file :
  (forall strptime a d,
      data_file d = NoFile ->
      main strptime a d
      = (printed [("Error: Data file not found at " ++ data a)%string] d,
         Raise (SystemExit 1)))
  /\ (forall strptime a d,
        data_file d = Garbage ->
        main strptime a d
        = (printed [("Loading data from " ++ data a ++ "...")%string]
             (with_output_dir d),
           Raise JSONDecodeError)).
Proof.
  split; intros strptime a d Hdata; unfold main, mbind, inspect, json_load;
    rewrite Hdata; cbn [file_exists negb fst snd].
  - unfold print, raise, printed. now rewrite Hdata.
  - destruct d as [f o out js shots]. simpl in Hdata. subst f.
    destruct o; reflexivity.
Qed.

Lemma unreadable_data_file_witness :
  main strptime_ascii (for_year 2025) empty_desk
  = (printed ["Error: Data file not found at data/activities.json"] empty_desk,
     Raise (SystemExit 1))
  /\ main strptime_ascii (for_year 2025) scrambled_desk
     = (printed ["Loading data from data/activities.json..."]
          (with_output_dir scrambled_desk),
        Raise JSONDecodeError).
Proof.
  split.
  - apply (proj1 unreadable_data_file strptime_ascii (for_year 2025) empty_desk).
    reflexivity.
  - apply (proj2 unreadable_data_file strptime_ascii (for_year 2025)
             scrambled_desk).
    reflexivity.
Defined.

(** ** The year's runs *)

Lemma selects_inv (strptime : string -> option datetime) (year : Z)
    (a : activity) :
  selects strptime year a = true <->
  get (f_type a) = Some "Run"
  /\ exists s dt, f_start_date_local a = Val s /\ s <> ""
                  /\ strptime s = Some dt /\ dt_year dt = year.
Proof.
  unfold selects, dated_run, py_eq_str, truthy_str, parse.
  destruct (get (f_type a)) as [t|]; simpl;
    [|split; [discriminate|intros [H _]; discriminate]].
  destruct (String.eqb_spec t "Run") as [->|Ht]; simpl;
    [|split; [discriminate|intros [H _]; congruence]].
  destruct (f_start_date_local a) as [| |s]; simpl;
    try (split; [discriminate|intros (_ & s & dt & H & _); discriminate]).
  destruct (String.eqb_spec s "") as [->|Hs]; simpl.
  - split; [discriminate|]. intros (_ & s & dt & H & Hne & _).
    injection H as <-. congruence.
  - destruct (strptime s) as [dt|] eqn:E; simpl.
    + split.
      * intros H. apply Z.eqb_eq in H. split; [reflexivity|].
        now exists s, dt.
      * intros (_ & s' & dt' & H & _ & Hp & Hy). injection H as <-.
        rewrite E in Hp. injection Hp as <-. now apply Z.eqb_eq.
    + split; [discriminate|]. intros (_ & s' & dt' & H & _ & Hp & _).
      injection H as <-. congruence.
Qed.

(** X10: the selection never raises and changes nothing but the printed
    lines; it returns, in the order of the file and with repetitions kept,
    exactly the records of type "Run" whose [start_date_local] is a
    non-empty string that the parser accepts with the year asked for. *)
Theorem selection_is_the_runs_of_the_year :
  forall (strptime : string -> option datetime) (year : Z)
         (activities : list activity) (d : desk),
    exists lines selected,
      select_year strptime year activities [] d = (printed lines d, Ok selected)
      /\ selected = filter (selects strptime year) activities
      /\ (List.length selected <= List.length activities)%nat
      /\ forall a,
           In a selected <->
           In a activities
           /\ get (f_type a) = Some "Run"
           /\ exists s dt, f_start_date_local a = Val s /\ s <> ""
                           /\ strptime s = Some dt /\ dt_year dt = year.
Proof.
  intros strptime year activities d.
  exists (map warning (filter (warns strptime) activities)),
         (filter (selects strptime year) activities).
  split; [apply select_year_spec|]. split; [reflexivity|]. split.
  - apply filter_length_le.
  - intros a. rewrite filter_In, selects_inv. reflexivity.
Qed.

(** ** The statistics loop *)

Lemma stats_step_ok (strptime : string -> option datetime) (t t' : totals)
    (act : activity) :
  stats_step strptime t act = Ok t' ->
  main_map_activities t'
  = (if starts_in_main_map act
     then main_map_activities t ++ [act]
     else main_map_activities t)%list
  /\ exists d m,
       get_default (f_distance act) (NInt 0) = Some d
       /\ get_default (f_moving_time act) (NInt 0) = Some m
       /\ num_add (total_dist_meters t) d = Ok (total_dist_meters t')
       /\ num_add (total_seconds t) m = Ok (total_seconds t')
       /\ max_dist_meters t'
          = (if num_gt d (max_dist_meters t) then d else max_dist_meters t).
Proof.
  unfold stats_step, starts_in_main_map.
  destruct (get_default (f_distance act) (NInt 0)) as [d|] eqn:Hd;
    [|discriminate].
  simpl.
  destruct (num_add (total_dist_meters t) d) as [td|e] eqn:Htd;
    [|discriminate].
  simpl.
  destruct (get_default (f_moving_time act) (NInt 0)) as [m|] eqn:Hm;
    [|discriminate].
  simpl.
  destruct (num_add (total_seconds t) m) as [ts|e] eqn:Hts; [|discriminate].
  simpl.
  destruct (parse strptime (get (f_start_date_local act))) as [dt|e];
    [|discriminate].
  simpl. intros H. injection H as <-. simpl. split; [reflexivity|].
  exists d, m. repeat split; assumption.
Qed.

Lemma stats_loop_main_map (strptime : string -> option datetime)
    (l : list activity) :
  forall t t',
    stats_loop strptime t l = Ok t' ->
    main_map_activities t'
    = (main_map_activities t ++ filter starts_in_main_map l)%list.
Proof.
  induction l as [|act l IH]; simpl; intros t t' H.
  - injection H as <-. now rewrite app_nil_r.
  - destruct (stats_step strptime t act) as [t1|e] eqn:Hstep; simpl in H;
      [|discriminate].
    apply stats_step_ok in Hstep. destruct Hstep as [Hmap _].
    rewrite (IH _ _ H), Hmap. destruct (starts_in_main_map act); [|reflexivity].
    now rewrite <- app_assoc.
Qed.

(** X11: after the statistics loop the runs for the main map are the
    selected runs that start inside the bounding box, in their order: the
    main map never shows a run that is not in the year's list, and never
    one without a start point of two coordinates. *)
Theorem main_map_runs_are_a_filter :
  forall (strptime : string -> option datetime) (year_activities : list activity)
         (t t' : totals),
    stats_loop strptime t year_activities = Ok t' ->
    main_map_activities t'
    = (main_map_activities t ++ filter starts_in_main_map year_activities)%list
    /\ forall a,
         In a (filter starts_in_main_map year_activities) ->
         In a year_activities
         /\ exists lat lon,
              get (f_start_latlng a) = Some [lat; lon]
              /\ num_le (NFloat min_lat) lat = true
              /\ num_le lat (NFloat max_lat) = true
              /\ num_le (NFloat min_lon) lon = true
              /\ num_le lon (NFloat max_lon) = true.
Proof.
  intros strptime l t t' H.
  split; [now apply (stats_loop_main_map strptime)|].
  intros a Ha. apply filter_In in Ha. destruct Ha as [Ha Hbox].
  split; [assumption|]. unfold starts_in_main_map, in_main_map in Hbox.
  destruct (get (f_start_latlng a)) as [[|lat [|lon [|x rest]]]|];
    try discriminate.
  exists lat, lon. split; [reflexivity|].
  apply andb_prop in Hbox. destruct Hbox as [Hbox H4].
  apply andb_prop in Hbox. destruct Hbox as [Hbox H3].
  apply andb_prop in Hbox. destruct Hbox as [H1 H2]. now repeat split.
Qed.

Lemma main_map_runs_are_a_filter_witness :
  exists t',
    stats_loop strptime_ascii totals0 [london_run; bute_park_run] = Ok t'
    /\ main_map_activities t' = [bute_park_run].
Proof.
  destruct (stats_loop strptime_ascii totals0 [london_run; bute_park_run])
    as [t'|e] eqn:H; [|discriminate H].
  exists t'. split; [reflexivity|].
  exact (proj1 (main_map_runs_are_a_filter strptime_ascii
                  [london_run; bute_park_run] totals0 t' H)).
Defined.

(** X12: when every moving time is an [int] (or the key is missing, which
    counts as zero), the total of the statistics loop is the exact integer
    sum, with no rounding, however large. *)
Theorem total_seconds_is_the_exact_sum :
  forall (strptime : string -> option datetime) (year_activities : list activity)
         (t t' : totals) (z : Z),
    stats_loop strptime t year_activities = Ok t' ->
    total_seconds t = NInt z ->
    Forall (fun a => f_moving_time a = Absent
                     \/ exists s, f_moving_time a = Val (NInt s))
           year_activities ->
    total_seconds t'
    = NInt (z + fold_right Z.add 0 (map whole_seconds year_activities)).
Proof.
  intros strptime l. induction l as [|act l IH]; simpl; intros t t' z H Hz Hall.
  - injection H as <-. now rewrite Z.add_0_r.
  - destruct (stats_step strptime t act) as [t1|e] eqn:Hstep; simpl in H;
      [|discriminate].
    inversion Hall as [|? ? Hact Hl]; subst.
    apply stats_step_ok in Hstep.
    destruct Hstep as (_ & d & m & _ & Hm & _ & Hts & _).
    assert (Hm' : m = NInt (whole_seconds act)).
    { unfold whole_seconds. destruct Hact as [Ha|[s Ha]]; rewrite Ha in Hm |- *;
        simpl in Hm; now injection Hm as <-. }
    subst m. rewrite Hz in Hts. simpl in Hts. injection Hts as Hts.
    rewrite (IH t1 t' (z + whole_seconds act) H (eq_sym Hts) Hl).
    f_equal. lia.
Qed.

Lemma total_seconds_is_the_exact_sum_witness :
  exists t',
    stats_loop strptime_ascii totals0 [london_run; bute_park_run] = Ok t'
    /\ total_seconds t' = NInt 4800.
Proof.
  destruct (stats_loop strptime_ascii totals0 [london_run; bute_park_run])
    as [t'|e] eqn:H; [|discriminate H].
  exists t'. split; [reflexivity|].
  apply (total_seconds_is_the_exact_sum strptime_ascii
           [london_run; bute_park_run] totals0 t' 0 H eq_refl).
  constructor; [right; eexists; reflexivity|].
  constructor; [right; eexists; reflexivity|]. constructor.
Defined.

(** X13: the longest distance the loop ends with is the one it started
    with or the distance of one of the runs: with the loop started from
    zero, the figure shown is zero or a distance that occurs in the data. *)
Theorem max_distance_is_attained :
  forall (strptime : string -> option datetime) (year_activities : list activity)
         (t t' : totals),
    stats_loop strptime t year_activities = Ok t' ->
    max_dist_meters t' = max_dist_meters t
    \/ exists a, In a year_activities
                 /\ get_default (f_distance a) (NInt 0)
                    = Some (max_dist_meters t').
Proof.
  intros strptime l. induction l as [|act l IH]; simpl; intros t t' H.
  - injection H as <-. now left.
  - destruct (stats_step strptime t act) as [t1|e] eqn:Hstep; simpl in H;
      [|discriminate].
    apply stats_step_ok in Hstep.
    destruct Hstep as (_ & d & m & Hd & _ & _ & _ & Hmax).
    destruct (IH _ _ H) as [Hsame|(a & Ha & Hda)].
    + rewrite Hsame, Hmax. destruct (num_gt d (max_dist_meters t)).
      * right. exists act. split; [now left|assumption].
      * now left.
    + right. exists a. split; [now right|assumption].
Qed.

Lemma max_distance_is_attained_witness :
  exists t',
    stats_loop strptime_ascii totals0 [london_run; bute_park_run] = Ok t'
    /\ (max_dist_meters t' = NInt 0
        \/ exists a, In a [london_run; bute_park_run]
                     /\ get_default (f_distance a) (NInt 0)
                        = Some (max_dist_meters t')).
Proof.
  destruct (stats_loop strptime_ascii totals0 [london_run; bute_park_run])
    as [t'|e] eqn:H; [|discriminate H].
  exists t'. split; [reflexivity|].
  exact (max_distance_is_attained strptime_ascii [london_run; bute_park_run]
           totals0 t' H).
Defined.

(** ** The payload *)

Lemma clean_activity_cases (act : activity) :
  match f_map act with
  | Null => clean_activity act = Raise AttributeError
  | Absent | Val _ => clean_activity act = Ok (cleaned_of act)
  end.
Proof.
  unfold clean_activity, cleaned_of. destruct (f_map act); reflexivity.
Qed.

Lemma map_result_clean_ok (l : list activity) :
  Forall (fun a => f_map a <> Null) l ->
  map_result clean_activity l = Ok (map cleaned_of l).
Proof.
  induction 1 as [|a l Ha _ IH]; simpl; [reflexivity|].
  pose proof (clean_activity_cases a) as Hc.
  destruct (f_map a); try congruence; rewrite Hc; simpl; now rewrite IH.
Qed.

Lemma map_result_clean_raises (l : list activity) (e : exn) :
  map_result clean_activity l = Raise e ->
  e = AttributeError /\ Exists (fun a => f_map a = Null) l.
Proof.
  induction l as [|a l IH]; simpl; [discriminate|].
  pose proof (clean_activity_cases a) as Hc.
  destruct (f_map a) eqn:Hm; rewrite Hc; simpl.
  - destruct (map_result clean_activity l); [discriminate|]. simpl.
    intros H. injection H as <-. destruct (IH eq_refl). split; [|right]; easy.
  - intros H. injection H as <-. split; [reflexivity|now left].
  - destruct (map_result clean_activity l); [discriminate|]. simpl.
    intros H. injection H as <-. destruct (IH eq_refl). split; [|right]; easy.
Qed.

Lemma map_result_clean_null (l : list activity) :
  Exists (fun a => f_map a = Null) l ->
  map_result clean_activity l = Raise AttributeError.
Proof.
  induction 1 as [a l Ha|a l Hex IH]; simpl.
  - pose proof (clean_activity_cases a) as Hc. rewrite Ha in Hc.
    now rewrite Hc.
  - destruct (clean_activity a) as [c|e] eqn:Hc; simpl.
    + now rewrite IH.
    + pose proof (clean_activity_cases a) as Hc'.
      destruct (f_map a); congruence.
Qed.

(** X14: cleaning a list of records raises exactly when one of them has
    [map] set to [null], and then with [AttributeError]; otherwise it
    returns one cleaned record per record, in order, with the polyline of
    the [map] object (none when [map] is missing) and the
    [start_date_local] as date. *)
Theorem cleaning_raises_on_null_map :
  forall l : list activity,
    (map_result clean_activity l = Raise AttributeError
     <-> Exists (fun a => f_map a = Null) l)
    /\ (forall e, map_result clean_activity l = Raise e -> e = AttributeError)
    /\ (Forall (fun a => f_map a <> Null) l ->
        map_result clean_activity l = Ok (map cleaned_of l)).
Proof.
  intros l. split; [split|split].
  - intros H. now apply map_result_clean_raises in H.
  - apply map_result_clean_null.
  - intros e H. now apply map_result_clean_raises in H.
  - apply map_result_clean_ok.
Qed.

Lemma cleaning_raises_on_null_map_witness :
  map_result clean_activity [london_run; unstamped_run] = Raise AttributeError
  /\ map_result clean_activity [ride; bute_park_run]
     = Ok (map cleaned_of [ride; bute_park_run]).
Proof.
  split.
  - apply (proj1 (cleaning_raises_on_null_map [london_run; unstamped_run])).
    right. left. reflexivity.
  - apply (proj2 (proj2 (cleaning_raises_on_null_map [ride; bute_park_run]))).
    repeat constructor; discriminate.
Defined.

(** ** All or nothing *)




(** * The merge as a list *)

Lemma key_eqb_sym (a b : option Z) : key_eqb a b = key_eqb b a.
Proof.
  destruct (key_eqb a b) eqn:E; symmetry.
  - apply key_eqb_eq in E. subst. apply key_eqb_refl.
  - apply key_eqb_neq. apply key_eqb_neq in E. congruence.
Qed.

Lemma dict_set_replace (k : option Z) (a : activity) (d : py_dict) :
  NoDup (map fst d) -> In k (map fst d) ->
  dict_set k a d
  = map (fun e => if key_eqb (fst e) k then (fst e, a) else e) d.
Proof.
  induction d as [|[k0 v0] d IH]; simpl; intros Hnd Hin; [tauto|].
  inversion Hnd as [|? ? Hk0 Hnd']; subst.
  destruct (key_eqb k0 k) eqn:E.
  - f_equal. apply key_eqb_eq in E. subst k0.
    rewrite <- (map_id d) at 1. apply map_ext_in. intros [k1 v1] H1. simpl.
    destruct (key_eqb k1 k) eqn:E1; [|reflexivity].
    apply key_eqb_eq in E1. subst k1. exfalso. apply Hk0.
    now apply (in_map fst) in H1.
  - f_equal. apply IH; [assumption|]. destruct Hin as [->|Hin]; [|assumption].
    now rewrite key_eqb_refl in E.
Qed.

Lemma refreshed_entry_other (a : activity) (new : list activity)
    (e : option Z * activity) :
  key_eqb (fst e) (id_key a) = false ->
  refreshed_entry (a :: new) e = refreshed_entry new e.
Proof.
  intros H. unfold refreshed_entry. simpl.
  destruct (last_with_id (fst e) new); [reflexivity|].
  now rewrite key_eqb_sym, H.
Qed.

Lemma activity_map_in_place (new : list activity) :
  forall d d',
    NoDup (map fst d) ->
    activity_map d new = Ok d' ->
    exists added,
      d' = (map (refreshed_entry new) d ++ added)%list
      /\ forall k v, In (k, v) added -> ~ In k (map fst d) /\ In v new.
Proof.
  induction new as [|a new IH]; simpl; intros d d' Hnd H.
  - injection H as <-. exists []. rewrite app_nil_r. split; [|intros k v []].
    rewrite <- (map_id d) at 1. apply map_ext. now intros [k v].
  - destruct (getitem "id" (f_id a)) as [k|e] eqn:Hk; simpl in H;
      [|discriminate].
    apply getitem_id in Hk. destruct Hk as [Ha <-].
    destruct (IH _ _ (dict_set_nodup (id_key a) a d Hnd) H)
      as (added & Hd' & Hadded).
    destruct (in_dec (fun x y => Bool.reflect_dec _ _
                        (iff_reflect _ _ (iff_sym (key_eqb_eq x y))))
                (id_key a) (map fst d)) as [Hin|Hnin].
    + exists added. split.
      * rewrite Hd', (dict_set_replace _ _ _ Hnd Hin), map_map. f_equal.
        apply map_ext. intros [k0 v0]. simpl.
        destruct (key_eqb k0 (id_key a)) eqn:E.
        -- apply key_eqb_eq in E. subst k0. unfold refreshed_entry. simpl.
           destruct (last_with_id (id_key a) new); [reflexivity|].
           now rewrite key_eqb_refl.
        -- symmetry. now apply refreshed_entry_other.
      * intros k v Hkv. destruct (Hadded k v Hkv) as [H1 H2].
        rewrite (dict_set_keys_in _ _ _ Hin) in H1. split; [assumption|].
        now right.
    + exists (refreshed_entry new (id_key a, a) :: added). split.
      * rewrite Hd', (dict_set_fresh _ _ _ Hnin), map_app, <- app_assoc.
        f_equal. apply map_ext_in. intros [k0 v0] H0. symmetry.
        apply refreshed_entry_other. simpl. apply key_eqb_neq. intros ->.
        apply Hnin. now apply (in_map fst) in H0.
      * intros k v [Hkv|Hkv].
        -- unfold refreshed_entry in Hkv. simpl in Hkv. injection Hkv as <- <-.
           split; [assumption|].
           destruct (last_with_id (id_key a) new) as [b|] eqn:E; [|now left].
           right. now apply last_with_id_in in E.
        -- destruct (Hadded k v Hkv) as [H1 H2]. split; [|now right].
           intros Hc. apply H1. apply dict_set_keys. now left.
Qed.

(** X16: on a cache without a repeated id the merge keeps the cached
    records in their places, each replaced by the last fetched record of
    its id when there is one, and appends after them the fetched records
    whose ids the cache did not have. *)
Theorem merge_updates_in_place :
  forall cached new merged : list activity,
    NoDup (map id_key cached) ->
    all_activities cached new = Ok merged ->
    exists added,
      merged = (map (refreshed new) cached ++ added)%list
      /\ NoDup (map id_key added)
      /\ forall a, In a added ->
                   In a new /\ ~ In (id_key a) (map id_key cached).
Proof.
  intros cached new merged Hnd Hm.
  destruct (all_activities_spec _ _ _ Hm) as (Hc & _ & _ & Hndm & _ & _).
  unfold all_activities in Hm.
  rewrite (activity_map_fresh cached Hc Hnd []) in Hm by (intros k []).
  simpl in Hm.
  destruct (activity_map (map entry cached) new) as [d'|e] eqn:Hd';
    simpl in Hm; [|discriminate]. injection Hm as <-.
  assert (Hfst : map fst (map entry cached) = map id_key cached)
    by (rewrite map_map; reflexivity).
  destruct (activity_map_spec _ _ _ Hd') as (_ & Hok & _ & _).
  assert (Hdok : dict_ok d').
  { apply Hok. split; [now rewrite Hfst|]. intros k v Hin.
    apply in_map_iff in Hin. destruct Hin as (a & Ha & Hin).
    injection Ha as <- <-. split; [|reflexivity].
    rewrite Forall_forall in Hc. now apply Hc. }
  assert (Hnd1 : NoDup (map fst (map entry cached))) by now rewrite Hfst.
  destruct (activity_map_in_place new _ _ Hnd1 Hd') as (added & Heq & Hadded).
  exists (map snd added).
  assert (Hlist : dict_values d'
                  = (map (refreshed new) cached ++ map snd added)%list).
  { rewrite Heq. unfold dict_values. rewrite map_app, !map_map. reflexivity. }
  split; [exact Hlist|]. split.
  - rewrite Hlist, map_app in Hndm. now apply NoDup_app_remove_l in Hndm.
  - intros a Ha. apply in_map_iff in Ha. destruct Ha as ([k v] & <- & Hin).
    simpl. destruct (Hadded k v Hin) as [H1 H2]. split; [assumption|].
    destruct (proj2 Hdok k v) as [_ ->];
      [rewrite Heq; apply in_or_app; now right|].
    now rewrite <- Hfst.
Qed.

Lemma merge_updates_in_place_witness :
  exists added,
    [london_run_renamed; new_york_run; cardiff_run]
    = (map (refreshed [london_run_renamed; cardiff_run])
         [london_run; new_york_run] ++ added)%list
    /\ NoDup (map id_key added)
    /\ forall a, In a added ->
                 In a [london_run_renamed; cardiff_run]
                 /\ ~ In (id_key a) (map id_key [london_run; new_york_run]).
Proof.
  apply (merge_updates_in_place [london_run; new_york_run]
           [london_run_renamed; cardiff_run]
           [london_run_renamed; new_york_run; cardiff_run]).
  - repeat constructor; simpl; intuition discriminate.
  - reflexivity.
Defined.

(** ** The authentication script *)

Lemma say_said (line : string) (c : console) :
  say line c = (said [line] c, Ok tt).
Proof. reflexivity. Qed.

Lemma said_said (l1 l2 : list string) (c : console) :
  said l2 (said l1 c) = said (l1 ++ l2) c.
Proof. unfold said. simpl. now rewrite <- app_assoc. Qed.

(** The four lines shown before the code is exchanged, and what the
    exchange leaves behind. *)
Lemma authenticate_unfold (env : authorizer) (c : console) :
  exists lines,
    List.length lines = 4%nat
    /\ authenticate env c
       = try_except (exchange_and_save env (typed_code env))
           (fun e => say (nl ++ "Error during authentication: "
                             ++ exn_message e))
           (said lines c).
Proof.
  eexists. split; [|unfold authenticate, mbind; rewrite !say_said, !said_said;
                    reflexivity].
  reflexivity.
Qed.

Lemma exchange_and_save_raises (env : authorizer) (code : string) (e : exn)
    (c : console) :
  exchange_code_for_token env code = Raise e ->
  exchange_and_save env code c = (c, Raise e).
Proof. intros H. unfold exchange_and_save, mbind, lift. now rewrite H. Qed.

Lemma exchange_and_save_missing (env : authorizer) (code : string)
    (resp : token_response) (k : string) (c : console) :
  exchange_code_for_token env code = Ok resp ->
  first_missing resp k ->
  exchange_and_save env code c = (c, Raise (KeyError k)).
Proof.
  intros H Hk. unfold exchange_and_save, mbind, lift. rewrite H.
  unfold present in Hk.
  destruct Hk as [[Ha ->] | [(Ha & Hr & ->) | (Ha & Hr & He & ->)]].
  - now rewrite Ha.
  - rewrite Hr. now destruct (r_access_token resp).
  - rewrite He.
    destruct (r_access_token resp); [contradiction| |];
      (destruct (r_refresh_token resp); [contradiction| |]); reflexivity.
Qed.

Lemma exchange_and_save_full (env : authorizer) (code : string)
    (resp : token_response) (c : console) :
  exchange_code_for_token env code = Ok resp ->
  full_grant resp ->
  exchange_and_save env code c
  = ({| token_json := Some (grant_of resp);
        screen := screen c
                  ++ [nl ++ "Authentication successful! Tokens saved to '"
                         ++ TOKEN_FILE ++ "'."] |}, Ok tt).
Proof.
  intros H (Ha & Hr & He). unfold exchange_and_save, mbind, lift. rewrite H.
  unfold present, grant_of in *.
  destruct (r_access_token resp); [contradiction| |];
    (destruct (r_refresh_token resp); [contradiction| |]);
    (destruct (r_expires_at resp); [contradiction| |]); reflexivity.
Qed.

Lemma grant_cases (resp : token_response) :
  full_grant resp \/ exists k, first_missing resp k.
Proof.
  unfold full_grant, first_missing, present.
  destruct (r_access_token resp) eqn:Ha;
    [right; exists "access_token"; left; split; reflexivity| |];
    (destruct (r_refresh_token resp) eqn:Hr;
     [right; exists "refresh_token"; right; left;
      repeat split; try reflexivity; discriminate| |]);
    (destruct (r_expires_at resp) eqn:He;
     [right; exists "expires_at"; right; right;
      repeat split; try reflexivity; discriminate| |]);
    left; repeat split; discriminate.
Qed.

(** X17: when the service refuses the code (the exchange raises an
    [Exception]), [authenticate] prints the instructions, then the error
    line with the exception's message, returns normally and leaves the
    token file as it was. *)
Theorem refused_code_keeps_token_file :
  forall (env : authorizer) (c : console) (e : exn),
    exchange_code_for_token env (typed_code env) = Raise e ->
    (forall code, e <> SystemExit code) ->
    exists lines,
      authenticate env c
      = (said (lines ++ [nl ++ "Error during authentication: "
                            ++ exn_message e]) c, Ok tt)
      /\ token_json (fst (authenticate env c)) = token_json c.
Proof.
  intros env c e He Hexit.
  destruct (authenticate_unfold env c) as (lines & _ & ->).
  exists lines. unfold try_except.
  rewrite (exchange_and_save_raises _ _ _ _ He).
  destruct e; try (rewrite say_said, said_said; split; reflexivity).
  now destruct (Hexit code).
Qed.

Lemma refused_code_keeps_token_file_witness :
  exists lines,
    authenticate refused old_console
    = (said (lines ++ [nl ++ "Error during authentication: "
                          ++ exn_message (CapabilityError "Bad Request")])
         old_console, Ok tt)
    /\ token_json (fst (authenticate refused old_console))
       = token_json old_console.
Proof.
  apply (refused_code_keeps_token_file refused old_console
           (CapabilityError "Bad Request")).
  - reflexivity.
  - discriminate.
Defined.

(** X18: when the response lacks one of [access_token], [refresh_token],
    [expires_at], the [KeyError] of the first missing key, in that order,
    is caught: the error line shows the quoted key, the function returns
    normally and nothing is written to the token file. *)
Theorem incomplete_grant_writes_nothing :
  forall (env : authorizer) (c : console) (resp : token_response)
         (k : string),
    exchange_code_for_token env (typed_code env) = Ok resp ->
    first_missing resp k ->
    exists lines,
      authenticate env c
      = (said (lines ++ [nl ++ "Error during authentication: '" ++ k ++ "'"])
           c, Ok tt)
      /\ token_json (fst (authenticate env c)) = token_json c.
Proof.
  intros env c resp k Hresp Hk.
  destruct (authenticate_unfold env c) as (lines & _ & ->).
  exists lines. unfold try_except.
  rewrite (exchange_and_save_missing _ _ _ _ _ Hresp Hk).
  rewrite say_said, said_said. split; reflexivity.
Qed.

Lemma incomplete_grant_writes_nothing_witness :
  exists lines,
    authenticate (with_exchange (fun _ => Ok short_grant)) old_console
    = (said (lines ++ [nl ++ "Error during authentication: '"
                          ++ "expires_at" ++ "'"])
         old_console, Ok tt)
    /\ token_json (fst (authenticate (with_exchange (fun _ => Ok short_grant))
                          old_console))
       = token_json old_console.
Proof.
  apply (incomplete_grant_writes_nothing
           (with_exchange (fun _ => Ok short_grant)) old_console short_grant
           "expires_at").
  - reflexivity.
  - right. right. repeat split; discriminate.
Defined.

(** X19: when the response carries the three keys, [authenticate] replaces
    the content of the token file with exactly the three values received (a
    [null] stays [null]), prints the success line last and returns
    normally. *)
Theorem full_grant_is_stored_as_received :
  forall (env : authorizer) (c : console) (resp : token_response),
    exchange_code_for_token env (typed_code env) = Ok resp ->
    full_grant resp ->
    exists lines,
      authenticate env c
      = ({| token_json := Some (grant_of resp);
            screen := screen c ++ lines
                      ++ [nl ++ "Authentication successful! Tokens saved to '"
                             ++ TOKEN_FILE ++ "'."] |}, Ok tt).
Proof.
  intros env c resp Hresp Hfull.
  destruct (authenticate_unfold env c) as (lines & _ & ->).
  exists lines. unfold try_except.
  rewrite (exchange_and_save_full _ _ _ _ Hresp Hfull).
  unfold said. simpl. now rewrite <- app_assoc.
Qed.

Lemma full_grant_is_stored_as_received_witness :
  exists lines,
    authenticate granted old_console
    = ({| token_json := Some {| d_access_token := Some "a";
                                d_refresh_token := Some "r";
                                d_expires_at := Some 2000000000 |};
          screen := screen old_console ++ lines
                    ++ [nl ++ "Authentication successful! Tokens saved to '"
                           ++ TOKEN_FILE ++ "'."] |}, Ok tt).
Proof.
  apply (full_grant_is_stored_as_received granted old_console
           {| r_access_token := Val "a";
              r_refresh_token := Val "r";
              r_expires_at := Val 2000000000 |}).
  - reflexivity.
  - repeat split; discriminate.
Defined.

(** X20: a run of the script changes the token file only if both
    [STRAVA_CLIENT_ID] and [STRAVA_CLIENT_SECRET] are set and non-empty
    and the exchange returned a response with the three keys; the file
    then holds that response's values and the script ended normally. *)
Theorem token_file_written_only_on_full_grant :
  forall (env : authorizer) (c : console),
    token_json (fst (authenticate_script env c)) <> token_json c ->
    truthy_str (CLIENT_ID env) = true
    /\ truthy_str (CLIENT_SECRET env) = true
    /\ exists resp,
         exchange_code_for_token env (typed_code env) = Ok resp
         /\ full_grant resp
         /\ token_json (fst (authenticate_script env c)) = Some (grant_of resp)
         /\ snd (authenticate_script env c) = Ok tt.
Proof.
  intros env c Hchanged. unfold authenticate_script in *.
  destruct (truthy_str (CLIENT_ID env));
    [|now destruct Hchanged].
  destruct (truthy_str (CLIENT_SECRET env));
    [|now destruct Hchanged].
  simpl in *. split; [reflexivity|]. split; [reflexivity|].
  destruct (exchange_code_for_token env (typed_code env)) as [resp|e] eqn:Hx.
  - exists resp. split; [reflexivity|].
    destruct (grant_cases resp) as [Hfull | [k Hk]].
    + destruct (authenticate_unfold env c) as (lines & _ & ->).
      unfold try_except.
      rewrite (exchange_and_save_full _ _ _ _ Hx Hfull).
      split; [exact Hfull|]. split; reflexivity.
    + exfalso. apply Hchanged.
      destruct (authenticate_unfold env c) as (lines & _ & ->).
      unfold try_except.
      now rewrite (exchange_and_save_missing _ _ _ _ _ Hx Hk).
  - exfalso. apply Hchanged.
    destruct (authenticate_unfold env c) as (lines & _ & ->).
    unfold try_except. rewrite (exchange_and_save_raises _ _ _ _ Hx).
    now destruct e.
Qed.

Lemma token_file_written_only_on_full_grant_witness :
  truthy_str (CLIENT_ID granted) = true
  /\ truthy_str (CLIENT_SECRET granted) = true
  /\ exists resp,
       exchange_code_for_token granted (typed_code granted) = Ok resp
       /\ full_grant resp
       /\ token_json (fst (authenticate_script granted old_console))
          = Some (grant_of resp)
       /\ snd (authenticate_script granted old_console) = Ok tt.
Proof.
  apply (token_file_written_only_on_full_grant granted old_console).
  vm_compute. discriminate.
Defined.
